(** * Orphan-photo workflow of [notInAlbumn-extended.py]

    A shallow embedding of the library-maintenance script: the paginated
    enumerators, the orphan filter, the validate-and-move loop and the album
    look-ups, run against an abstract remote photo service.

    Python dictionaries coming back from the service are finite maps from
    field names to strings, Python sets of ids are finite sets, exceptions
    are an explicit outcome, and every [while True] loop is driven by a fuel
    argument that bounds its number of iterations. *)

From Stdlib Require Import ZArith Lia Ascii.
From stdpp Require Import base option list strings pretty gmap.

Open Scope Z_scope.

(** ** Values exchanged with the service *)

(** A JSON object of the API ([mediaItem] or [album]): the script only reads
    the string fields [id], [filename], [mimeType] and [title]. *)
Abbreviation item := (gmap string string).

(** The exceptions the script can meet: a missing dictionary key, or
    whatever [execute()] raises (both are subclasses of [Exception]). *)
Inductive exn : Type :=
  | KeyError (key : string)
  | HttpError (msg : string).

(** [str(e)], as interpolated in the diagnostics. *)
Definition exn_str (e : exn) : string :=
  match e with
  | KeyError k => "'" +:+ k +:+ "'"
  | HttpError m => m
  end.

(** Response of [mediaItems().list] and [mediaItems().search]. *)
Record items_page : Type := ItemsPage {
  mediaItems : option (list item);
  items_nextPageToken : option string
}.

(** Response of [albums().list]. *)
Record albums_page : Type := AlbumsPage {
  albums : option (list item);
  albums_nextPageToken : option string
}.

(** The requests the script sends, recorded in the order they are executed.
    [get_album_item_ids] leaves [excludeNonAppCreatedData] out, which is
    the API's default [False] that [find_album] passes explicitly. *)
Inductive request : Type :=
  | MediaItemsList (pageSize : Z) (pageToken : option string)
  | MediaItemsSearch (albumId : string) (pageSize : Z) (pageToken : option string)
  | MediaItemsGet (mediaItemId : string)
  | AlbumsList (pageSize : Z) (excludeNonAppCreatedData : bool) (pageToken : option string)
  | AlbumsGet (albumId : string)
  | AlbumsBatchAdd (albumId : string) (mediaItemIds : list string).

Global Instance request_eq_dec : EqDecision request.
Proof. solve_decision. Defined.

(** The remote service: every endpoint answers from, and may change, a
    state of its own, and either raises or returns a response. *)
Record Service (St : Type) : Type := MkService {
  mediaItems_list : Z → option string → St → (exn + items_page) * St;
  mediaItems_search : string → Z → option string → St → (exn + items_page) * St;
  mediaItems_get : string → St → (exn + item) * St;
  albums_list : Z → bool → option string → St → (exn + albums_page) * St;
  albums_get : string → St → (exn + item) * St;
  albums_batchAddMediaItems : string → list string → St → (exn + item) * St
}.
Arguments MkService {St}.
Arguments mediaItems_list {St}.
Arguments mediaItems_search {St}.
Arguments mediaItems_get {St}.
Arguments albums_list {St}.
Arguments albums_get {St}.
Arguments albums_batchAddMediaItems {St}.

(** ** Outcomes and the world the script runs in *)

Inductive outcome (A : Type) : Type :=
  | Ret (a : A)
  | Raise (e : exn)
  | OutOfFuel.
Arguments Ret {A}.
Arguments Raise {A}.
Arguments OutOfFuel {A}.

(** Service state, requests executed so far, lines printed so far. *)
Record world (St : Type) : Type := World {
  svc : St;
  trace : list request;
  stdout : list string
}.
Arguments World {St}.
Arguments svc {St}.
Arguments trace {St}.
Arguments stdout {St}.

Definition M (St A : Type) : Type := world St → outcome A * world St.

Global Instance M_ret {St} : MRet (M St) := λ A a w, (Ret a, w).
Global Instance M_bind {St} : MBind (M St) := λ A B f m w,
  match m w with
  | (Ret a, w') => f a w'
  | (Raise e, w') => (Raise e, w')
  | (OutOfFuel, w') => (OutOfFuel, w')
  end.

Definition raise {St A} (e : exn) : M St A := λ w, (Raise e, w).
Definition out_of_fuel {St A} : M St A := λ w, (OutOfFuel, w).

(** [try: m  except Exception as e: h e] *)
Definition try_except {St A} (m : M St A) (h : exn → M St A) : M St A := λ w,
  match m w with
  | (Raise e, w') => h e w'
  | r => r
  end.

(** [print(line)] *)
Definition print {St} (line : string) : M St unit := λ w,
  (Ret (), World (svc w) (trace w) (stdout w ++ [line])).

(** [d[k]]: raises [KeyError] on a missing key. *)
Definition getitem {St} (d : item) (k : string) : M St string :=
  match d !! k with
  | Some v => mret v
  | None => raise (KeyError k)
  end.

(** [for x in l: body x] *)
Fixpoint for_each {St A} (l : list A) (body : A → M St unit) : M St unit :=
  match l with
  | [] => mret ()
  | x :: l' => body x ;; for_each l' body
  end.

(** [[x for x in l if cond x]] where [cond] may raise. *)
Fixpoint filterM {St A} (cond : A → M St bool) (l : list A) : M St (list A) :=
  match l with
  | [] => mret []
  | x :: l' =>
      b ← cond x;
      rest ← filterM cond l';
      mret (if b : bool then x :: rest else rest)
  end.

(** [[f x for x in l]] where [f] may raise. *)
Fixpoint mapM {St A B} (f : A → M St B) (l : list A) : M St (list B) :=
  match l with
  | [] => mret []
  | x :: l' => y ← f x; rest ← mapM f l'; mret (y :: rest)
  end.

(** Truth value of a page token: [None] and the empty string are falsy. *)
Definition truthy (tok : option string) : bool :=
  match tok with
  | Some (String _ _) => true
  | _ => false
  end.

(** [l[:n]] for a Python integer [n]: a negative [n] counts from the end. *)
Definition slice_to {A} (l : list A) (n : Z) : list A :=
  if decide (0 ≤ n) then take (Z.to_nat n) l
  else take (Z.to_nat (Z.of_nat (length l) + n)) l.

(** ** The script *)

Section Script.
Context {St : Type} (service : Service St).

(** [service.<endpoint>(...).execute()]: the request is recorded, the
    service answers and moves to its next state. *)
Definition execute {R} (req : request) (ep : St → (exn + R) * St) : M St R := λ w,
  let '(r, s') := ep (svc w) in
  let w' := World s' (trace w ++ [req]) (stdout w) in
  match r with
  | inl e => (Raise e, w')
  | inr v => (Ret v, w')
  end.

Definition mediaItems_list_execute (pageSize : Z) (pageToken : option string) :=
  execute (MediaItemsList pageSize pageToken)
          (mediaItems_list service pageSize pageToken).
Definition mediaItems_search_execute (albumId : string) (pageSize : Z) (pageToken : option string) :=
  execute (MediaItemsSearch albumId pageSize pageToken)
          (mediaItems_search service albumId pageSize pageToken).
Definition mediaItems_get_execute (mediaItemId : string) :=
  execute (MediaItemsGet mediaItemId) (mediaItems_get service mediaItemId).
Definition albums_list_execute (pageSize : Z) (excl : bool) (pageToken : option string) :=
  execute (AlbumsList pageSize excl pageToken)
          (albums_list service pageSize excl pageToken).
Definition albums_get_execute (albumId : string) :=
  execute (AlbumsGet albumId) (albums_get service albumId).
Definition albums_batchAddMediaItems_execute (albumId : string) (ids : list string) :=
  execute (AlbumsBatchAdd albumId ids) (albums_batchAddMediaItems service albumId ids).

(** The comprehension condition of [get_all_photos]:
    ['mimeType' in item and item['mimeType'].startswith("image/")
     and 'filename' in item]. *)
Definition is_photo (it : item) : bool :=
  match it !! "mimeType" with
  | Some m => String.prefix "image/" m && bool_decide (is_Some (it !! "filename"))
  | None => false
  end.

(** The [while True] loop of [get_all_photos]. *)
Fixpoint get_all_photos_loop (fuel : nat) (all_photos : list item)
    (page_token : option string) : M St (list item) :=
  match fuel with
  | O => out_of_fuel
  | S fuel' =>
      results ← mediaItems_list_execute 100 page_token;
      let media_items := default [] (mediaItems results) in
      let photos := filter (λ it, is_photo it = true) media_items in
      let all_photos := all_photos ++ photos in
      let page_token := items_nextPageToken results in
      if negb (truthy page_token) then mret all_photos
      else get_all_photos_loop fuel' all_photos page_token
  end.

Definition get_all_photos (fuel : nat) : M St (list item) :=
  get_all_photos_loop fuel [] None.

(** The ids an album page contributes:
    [item['id'] for item in items if 'id' in item]. *)
Definition page_ids (items : list item) : list string :=
  omap (λ it : item, it !! "id") items.

(** The inner [while True] loop of [get_album_item_ids]: the pages of one
    album's member search. *)
Fixpoint album_search_loop (fuel : nat) (album_id : string)
    (album_item_ids : gset string) (album_page_token : option string)
    : M St (gset string) :=
  match fuel with
  | O => out_of_fuel
  | S fuel' =>
      album_items ← mediaItems_search_execute album_id 50 album_page_token;
      let items := default [] (mediaItems album_items) in
      let album_item_ids := album_item_ids ∪ list_to_set (page_ids items) in
      let album_page_token := items_nextPageToken album_items in
      if negb (truthy album_page_token) then mret album_item_ids
      else album_search_loop fuel' album_id album_item_ids album_page_token
  end.

(** [for album in albums:] of [get_album_item_ids]. *)
Fixpoint albums_for (fuel : nat) (albums : list item)
    (album_item_ids : gset string) : M St (gset string) :=
  match albums with
  | [] => mret album_item_ids
  | album :: rest =>
      album_id ← getitem album "id";
      album_item_ids ← album_search_loop fuel album_id album_item_ids None;
      albums_for fuel rest album_item_ids
  end.

(** The outer [while True] loop of [get_album_item_ids]: the album listing
    is executed once for the albums and once more for the token. *)
Fixpoint get_album_item_ids_loop (fuel : nat) (album_item_ids : gset string)
    (page_token : option string) : M St (gset string) :=
  match fuel with
  | O => out_of_fuel
  | S fuel' =>
      response ← albums_list_execute 50 false page_token;
      let albums := default [] (albums response) in
      album_item_ids ← albums_for fuel' albums album_item_ids;
      response' ← albums_list_execute 50 false page_token;
      let page_token := albums_nextPageToken response' in
      if negb (truthy page_token) then mret album_item_ids
      else get_album_item_ids_loop fuel' album_item_ids page_token
  end.

Definition get_album_item_ids (fuel : nat) : M St (gset string) :=
  get_album_item_ids_loop fuel ∅ None.

(** [photo['id'] not in album_item_ids] *)
Definition not_in_album (album_item_ids : gset string) (photo : item) : M St bool :=
  i ← getitem photo "id";
  mret (bool_decide (i ∉ album_item_ids)).

Definition get_items_no_album (fuel : nat) (batch_size : Z) : M St (list item) :=
  all_photos ← get_all_photos fuel;
  album_item_ids ← get_album_item_ids fuel;
  no_album_photos ← filterM (not_in_album album_item_ids) all_photos;
  mret (slice_to no_album_photos batch_size).

Definition newline : string := String (Ascii.ascii_of_nat 10) "".

(** The validation loop of [get_and_move_items_no_album]. *)
Definition validate_one (valid_ids : list string) (media_id : string)
    : M St (list string) :=
  try_except
    (media_item ← mediaItems_get_execute media_id;
     if decide (media_item ≠ ∅) then
       print ("Valid Media Item ID: " +:+ media_id +:+ " | Filename: "
              +:+ default "Unknown" (media_item !! "filename")) ;;
       mret (valid_ids ++ [media_id])
     else
       print ("Media item not found or invalid: " +:+ media_id) ;;
       mret valid_ids)
    (λ e,
       print ("Invalid or inaccessible media item ID: " +:+ media_id
              +:+ ", Error: " +:+ exn_str e) ;;
       mret valid_ids).

Fixpoint validate_ids (valid_ids : list string) (media_item_ids : list string)
    : M St (list string) :=
  match media_item_ids with
  | [] => mret valid_ids
  | media_id :: rest =>
      valid_ids ← validate_one valid_ids media_id;
      validate_ids valid_ids rest
  end.

(** The move loop of [get_and_move_items_no_album]. *)
Definition move_one (album_id valid_id : string) : M St unit :=
  try_except
    (albums_batchAddMediaItems_execute album_id [valid_id] ;;
     print ("Successfully moved item with ID: " +:+ valid_id
            +:+ " to album with ID: " +:+ album_id))
    (λ e,
       print ("Error adding item with ID: " +:+ valid_id
              +:+ " to album: " +:+ exn_str e)).

Definition move_ids (album_id : string) (valid_ids : list string) : M St unit :=
  for_each valid_ids (move_one album_id).

(** Lines 133 to 162: validate the candidates, then move the valid ones. *)
Definition validate_and_move (album_id : string) (photos_to_move : list item)
    : M St unit :=
  match photos_to_move with
  | _ :: _ =>
      media_item_ids ← mapM (λ photo, getitem photo "id") photos_to_move;
      valid_ids ← validate_ids [] media_item_ids;
      match valid_ids with
      | _ :: _ => move_ids album_id valid_ids
      | [] => print "No valid media item IDs found to add to the album."
      end
  | [] => print "No photos without an album were found."
  end.

(** [print(f"Filename: {photo['filename']} | ID: {photo['id']}")] *)
Definition print_photo (photo : item) : M St unit :=
  filename ← getitem photo "filename";
  i ← getitem photo "id";
  print ("Filename: " +:+ filename +:+ " | ID: " +:+ i).

Definition get_and_move_items_no_album (fuel : nat) (album_id : string)
    (batch_size : Z) : M St (list item) :=
  all_photos ← get_all_photos fuel;
  album_item_ids ← get_album_item_ids fuel;
  no_album_photos ← filterM (not_in_album album_item_ids) all_photos;
  let photos_to_move := slice_to no_album_photos batch_size in
  print ("Listing up to " +:+ pretty batch_size
         +:+ " photos that are not in any album:" +:+ newline) ;;
  for_each photos_to_move print_photo ;;
  validate_and_move album_id photos_to_move ;;
  mret photos_to_move.

(** [for album in response.get('albums', []):] of [find_album]: [Some]
    is the [return album] inside the loop. *)
Fixpoint find_in_page (albums : list item) (album_name : string)
    : M St (option item) :=
  match albums with
  | [] => mret None
  | album :: rest =>
      title ← getitem album "title";
      if decide (title = album_name) then mret (Some album)
      else find_in_page rest album_name
  end.

Fixpoint find_album_loop (fuel : nat) (album_name : string)
    (next_page_token : option string) : M St (option item) :=
  match fuel with
  | O => out_of_fuel
  | S fuel' =>
      response ← albums_list_execute 50 false next_page_token;
      found ← find_in_page (default [] (albums response)) album_name;
      match found with
      | Some album => mret (Some album)
      | None =>
          let next_page_token := albums_nextPageToken response in
          if negb (truthy next_page_token) then mret None
          else find_album_loop fuel' album_name next_page_token
      end
  end.

Definition find_album (fuel : nat) (album_name : string) : M St (option item) :=
  find_album_loop fuel album_name None.

Definition get_album_by_id (album_id : string) : M St (option item) :=
  try_except
    (album ← albums_get_execute album_id;
     mret (Some album))
    (λ e,
       print ("Error fetching album: " +:+ exn_str e) ;;
       mret None).

End Script.

(** The single-fetch collector the double fetch is compared with: one
    [albums().list] response per outer page supplies both the albums and the
    continuation token. *)
Section SingleFetch.
Context {St : Type} (service : Service St).

Fixpoint single_fetch_loop (fuel : nat) (album_item_ids : gset string)
    (page_token : option string) : M St (gset string) :=
  match fuel with
  | O => out_of_fuel
  | S fuel' =>
      response ← albums_list_execute service 50 false page_token;
      let albums := default [] (albums response) in
      album_item_ids ← albums_for service fuel' albums album_item_ids;
      let page_token := albums_nextPageToken response in
      if negb (truthy page_token) then mret album_item_ids
      else single_fetch_loop fuel' album_item_ids page_token
  end.

Definition get_album_item_ids_single_fetch (fuel : nat) : M St (gset string) :=
  single_fetch_loop fuel ∅ None.
End SingleFetch.

(** ** A library at rest

    A remote library that does not change while the script runs: the pages
    of the photo listing, the pages of the album listing, and for every album
    id the pages of its member search.  Page [k] is requested with a token
    of [k] characters; the last page carries no token. *)

Record library : Type := Library {
  photo_pages : list (list item);
  album_pages : list (list item);
  album_members : gmap string (list (list item))
}.

(** Which single-item look-ups and which batch-adds the service refuses. *)
Record faults : Type := Faults {
  lookup_fails : gset string;
  add_fails : gset string
}.

Definition no_faults : faults := Faults ∅ ∅.

Fixpoint token_of (k : nat) : string :=
  match k with
  | O => ""
  | S k' => String "x"%char (token_of k')
  end.

Definition page_index (tok : option string) : nat :=
  match tok with
  | None => 0%nat
  | Some t => String.length t
  end.

Definition next_token {A} (pages : list (list A)) (k : nat) : option string :=
  if decide (S k < length pages)%nat then Some (token_of (S k)) else None.

Definition serve_items (pages : list (list item)) (tok : option string) : items_page :=
  ItemsPage (pages !! page_index tok) (next_token pages (page_index tok)).

Definition serve_albums (pages : list (list item)) (tok : option string) : albums_page :=
  AlbumsPage (pages !! page_index tok) (next_token pages (page_index tok)).

Definition has_id (i : string) (it : item) : Prop := it !! "id" = Some i.

Global Instance has_id_dec i it : Decision (has_id i it).
Proof. unfold has_id. apply _. Defined.

Definition lookup_by_id (pages : list (list item)) (i : string) : option item :=
  snd <$> list_find (has_id i) (mjoin pages).

Definition library_service (L : library) (F : faults) : Service unit := {|
  mediaItems_list := λ _ tok s, (inr (serve_items (photo_pages L) tok), s);
  mediaItems_search := λ album_id _ tok s,
    (inr (serve_items (default [] (album_members L !! album_id)) tok), s);
  mediaItems_get := λ i s,
    (if decide (i ∈ lookup_fails F) then inl (HttpError "404 Not Found")
     else match lookup_by_id (photo_pages L) i with
          | Some it => inr it
          | None => inl (HttpError "404 Not Found")
          end, s);
  albums_list := λ _ _ tok s, (inr (serve_albums (album_pages L) tok), s);
  albums_get := λ i s,
    (match lookup_by_id (album_pages L) i with
     | Some a => inr a
     | None => inl (HttpError "404 Not Found")
     end, s);
  albums_batchAddMediaItems := λ _ ids s,
    (if decide (Exists (λ i, i ∈ add_fails F) ids)
     then inl (HttpError "400 Bad Request") else inr ∅, s)
|}.

Definition start : world unit := World () [] [].

(** ** A listing that answers differently the second time

    The album listing answers a token from [first] when it sees the token
    for the first time and from [second] afterwards; the state is the list
    of tokens already requested. *)
Definition replaying_service (first second : option string → albums_page)
    (members : gmap string (list (list item)))
    : Service (list (option string)) := {|
  mediaItems_list := λ _ _ s, (inr (ItemsPage None None), s);
  mediaItems_search := λ album_id _ tok s,
    (inr (serve_items (default [] (members !! album_id)) tok), s);
  mediaItems_get := λ _ s, (inl (HttpError "404 Not Found"), s);
  albums_list := λ _ _ tok s,
    (inr (if decide (tok ∈ s) then second tok else first tok), tok :: s);
  albums_get := λ _ s, (inl (HttpError "404 Not Found"), s);
  albums_batchAddMediaItems := λ _ _ s, (inr ∅, s)
|}.

(** Some concrete records. *)
Definition photo (i : string) : item :=
  {[ "id" := i; "filename" := i +:+ ".jpg"; "mimeType" := "image/jpeg" ]}.
Definition album (i title : string) : item :=
  {[ "id" := i; "title" := title ]}.
Definition member (i : string) : item := {[ "id" := i ]}.

(** The library of the spec's scenarios: photos p1..p5, one album holding
    p1 and p3. *)
Definition five_photos : library :=
  Library [[photo "p1"; photo "p2"; photo "p3"]; [photo "p4"; photo "p5"]]
          [[album "a1" "Vacation"]]
          {[ "a1" := [[member "p1"]; [member "p3"]] ]}.

(** A service over the scenario library that refuses to look up p2 and to
    add p4 to an album. *)
Definition flaky : faults := Faults {[ "p2" ]} {[ "p4" ]}.

(** Two albums of the same title on two listing pages; p3 is in both, and
    one member entry of the first album has no [id]. *)
Definition two_albums : library :=
  Library []
          [[album "a1" "Vacation"]; [album "a2" "Vacation"]]
          {[ "a1" := [[member "p1"; ∅]; [member "p3"]];
             "a2" := [[member "p3"]] ]}.

(** The same albums listed in the other order, on one page. *)
Definition two_albums_swapped : library :=
  Library []
          [[album "a2" "Vacation"; album "a1" "Vacation"]]
          (album_members two_albums).

(** An image with a filename but without an id, alone in a library, and
    between two ordinary photos. *)
Definition stray : item :=
  {[ "filename" := "a.png"; "mimeType" := "image/png" ]}.
Definition stray_library : library := Library [[stray]] [] ∅.
Definition idless_library : library :=
  Library [[photo "p1"; stray; photo "p2"]] [] ∅.

(** An album without a title listed before one called Vacation. *)
Definition untitled_first : library :=
  Library [] [[ {[ "id" := "a0" ]}; album "a1" "Vacation" ]] ∅.

(** Three albums A, B, C on three listing pages, one member each. *)
Definition abc_members : gmap string (list (list item)) :=
  {[ "A" := [[member "a"]]; "B" := [[member "b"]]; "C" := [[member "c"]] ]}.

(** The listing: pages [None], x, xx hold A, B, C; the cursor y starts
    over at A and B. *)
Definition abc_listing (tok : option string) : albums_page :=
  if decide (tok = None) then AlbumsPage (Some [album "A" "A"]) (Some "x")
  else if decide (tok = Some "x") then AlbumsPage (Some [album "B" "B"]) (Some "xx")
  else if decide (tok = Some "xx") then AlbumsPage (Some [album "C" "C"]) None
  else if decide (tok = Some "y")
       then AlbumsPage (Some [album "A" "A"; album "B" "B"]) (Some "xx")
  else AlbumsPage None None.

(** The second answer to the first request points past page B. *)
Definition abc_jumping (tok : option string) : albums_page :=
  if decide (tok = None) then AlbumsPage (Some [album "A" "A"]) (Some "xx")
  else abc_listing tok.

(** The second answer to the first request points to the cursor that
    starts over. *)
Definition abc_overlapping (tok : option string) : albums_page :=
  if decide (tok = None) then AlbumsPage (Some [album "A" "A"]) (Some "y")
  else abc_listing tok.

Definition skipping_service : Service (list (option string)) :=
  replaying_service abc_listing abc_jumping abc_members.
Definition repeating_service : Service (list (option string)) :=
  replaying_service abc_listing abc_overlapping abc_members.

Definition fresh : world (list (option string)) := World [] [] [].

(** What the scenario library looks like to the script: the enumerated
    photos and the worlds after each collector. *)
Definition five_photos_enumerated : list item :=
  [photo "p1"; photo "p2"; photo "p3"; photo "p4"; photo "p5"].
Definition five_photos_w1 : world unit :=
  World () [MediaItemsList 100 None; MediaItemsList 100 (Some "x")] [].
Definition five_photos_w2 : world unit :=
  World () [MediaItemsList 100 None; MediaItemsList 100 (Some "x");
            AlbumsList 50 false None;
            MediaItemsSearch "a1" 50 None;
            MediaItemsSearch "a1" 50 (Some "x");
            AlbumsList 50 false None] [].

(** ** Specification vocabulary *)

(** The diagnostics of the validation and move phases. *)
Definition valid_line (media_id : string) (media_item : item) : string :=
  "Valid Media Item ID: " +:+ media_id +:+ " | Filename: "
  +:+ default "Unknown" (media_item !! "filename").
Definition not_found_line (media_id : string) : string :=
  "Media item not found or invalid: " +:+ media_id.
Definition invalid_line (media_id : string) (e : exn) : string :=
  "Invalid or inaccessible media item ID: " +:+ media_id
  +:+ ", Error: " +:+ exn_str e.
Definition moved_line (valid_id album_id : string) : string :=
  "Successfully moved item with ID: " +:+ valid_id
  +:+ " to album with ID: " +:+ album_id.
Definition move_error_line (valid_id : string) (e : exn) : string :=
  "Error adding item with ID: " +:+ valid_id +:+ " to album: " +:+ exn_str e.

(** The page tokens of the album listing requests of a trace. *)
Definition listing_tokens (t : list request) : list (option string) :=
  omap (λ r, match r with AlbumsList _ _ tok => Some tok | _ => None end) t.

(** Every element twice in a row. *)
Definition doubled {A} (l : list A) : list A := l ≫= λ x, [x; x].

(** How often an album's member search was started. *)
Definition searches_started (album_id : string) (t : list request) : nat :=
  length (filter (λ r, r = MediaItemsSearch album_id 50 None) t).

(** The album listing leaves the service state alone, and member searches
    do not change what the listing answers: two identical listing requests
    of one outer page get identical responses. *)
Definition listing_read_only {St} (service : Service St) : Prop :=
  ∀ pageSize excl tok s, snd (albums_list service pageSize excl tok s) = s.
Definition search_keeps_listing {St} (service : Service St) : Prop :=
  ∀ album_id pageSize tok s pageSize' excl tok',
    fst (albums_list service pageSize' excl tok'
           (snd (mediaItems_search service album_id pageSize tok s)))
    = fst (albums_list service pageSize' excl tok' s).

(** Two runs that end the same way in the same service state. *)
Definition agree {St A} (x y : outcome A * world St) : Prop :=
  fst x = fst y ∧ svc (snd x) = svc (snd y).

(** The listing answers every request alike in two service states. *)
Definition answers {St} (service : Service St) (s1 s2 : St) : Prop :=
  ∀ pageSize excl tok,
    fst (albums_list service pageSize excl tok s1)
    = fst (albums_list service pageSize excl tok s2).

(** The world after one executed request. *)
Definition after {St} (w : world St) (req : request) (s' : St)
    (lines : list string) : world St :=
  World s' (trace w ++ [req]) (stdout w ++ lines).

(** The ids of a list of photos, where present. *)
Definition ids_of (photos : list item) : list string :=
  omap (λ it : item, it !! "id") photos.

Definition add_request (album_id valid_id : string) : request :=
  AlbumsBatchAdd album_id [valid_id].

(** What the service answers when the ids of [media_item_ids] are looked
    up one after the other from the state [s]: every id with its answer,
    and the state the service is left in. *)
Fixpoint lookups {St} (service : Service St) (media_item_ids : list string)
    (s : St) : list (string * (exn + item)) * St :=
  match media_item_ids with
  | [] => ([], s)
  | media_id :: rest =>
      let '(r, s') := mediaItems_get service media_id s in
      let '(looked, s'') := lookups service rest s' in
      ((media_id, r) :: looked, s'')
  end.

(** What it answers when the ids of [valid_ids] are submitted to the album
    one after the other, one id per batch-add. *)
Fixpoint additions {St} (service : Service St) (album_id : string)
    (valid_ids : list string) (s : St) : list (string * (exn + item)) * St :=
  match valid_ids with
  | [] => ([], s)
  | valid_id :: rest =>
      let '(r, s') := albums_batchAddMediaItems service album_id [valid_id] s in
      let '(added, s'') := additions service album_id rest s' in
      ((valid_id, r) :: added, s'')
  end.

(** A look-up validates its id when it answers an item that is not empty;
    [valid_of] keeps the ids so validated. *)
Definition accepted (r : exn + item) : bool :=
  match r with
  | inr media_item => bool_decide (media_item ≠ ∅)
  | inl _ => false
  end.
Definition valid_of (looked : list (string * (exn + item))) : list string :=
  omap (λ a, if accepted a.2 then Some a.1 else None) looked.

(** The line a look-up, and a batch-add, is reported with. *)
Definition lookup_line (a : string * (exn + item)) : string :=
  match a.2 with
  | inl e => invalid_line a.1 e
  | inr media_item =>
      if accepted a.2 then valid_line a.1 media_item else not_found_line a.1
  end.
Definition add_line (album_id : string) (a : string * (exn + item)) : string :=
  match a.2 with
  | inl e => move_error_line a.1 e
  | inr _ => moved_line a.1 album_id
  end.

(** What lines 133 to 162 print for the candidates, given the answers to
    the look-ups and to the batch-adds. *)
Definition mutator_lines (album_id : string) (candidates : list item)
    (looked added : list (string * (exn + item))) : list string :=
  match candidates with
  | [] => ["No photos without an album were found."]
  | _ :: _ =>
      (lookup_line <$> looked)
      ++ match valid_of looked with
         | [] => ["No valid media item IDs found to add to the album."]
         | _ :: _ => add_line album_id <$> added
         end
  end.

(** The requests of one album's member search from the page [tok] on,
    taking the service from [s] to [s']: one search per page, as long as the
    answers carry a continuation token. *)
Inductive searched {St} (service : Service St) (album_id : string)
    : option string → St → list request → St → Prop :=
  | searched_last tok s page s' :
      mediaItems_search service album_id 50 tok s = (inr page, s') →
      truthy (items_nextPageToken page) = false →
      searched service album_id tok s [MediaItemsSearch album_id 50 tok] s'
  | searched_more tok s page s' t s'' :
      mediaItems_search service album_id 50 tok s = (inr page, s') →
      truthy (items_nextPageToken page) = true →
      searched service album_id (items_nextPageToken page) s' t s'' →
      searched service album_id tok s (MediaItemsSearch album_id 50 tok :: t) s''.

(** The requests of processing the albums of a listing page: the member
    search of every album in turn, keyed by the album's id. *)
Inductive processed {St} (service : Service St)
    : list item → St → list request → St → Prop :=
  | processed_nil s : processed service [] s [] s
  | processed_cons a album_id rest s t s' t' s'' :
      a !! "id" = Some album_id →
      searched service album_id None s t s' →
      processed service rest s' t' s'' →
      processed service (a :: rest) s (t ++ t') s''.

(** The requests of the collector from the outer page [tok] on: the
    listing is requested, the albums of that answer are processed, then the
    listing is requested again with the same token, and the continuation
    token of this second answer, if there is one, leads to the next page. *)
Inductive collected {St} (service : Service St)
    : option string → St → list request → St → Prop :=
  | collected_last tok s response s1 t s2 response' s3 :
      albums_list service 50 false tok s = (inr response, s1) →
      processed service (default [] (albums response)) s1 t s2 →
      albums_list service 50 false tok s2 = (inr response', s3) →
      truthy (albums_nextPageToken response') = false →
      collected service tok s
        (AlbumsList 50 false tok :: t ++ [AlbumsList 50 false tok]) s3
  | collected_more tok s response s1 t s2 response' s3 rest s4 :
      albums_list service 50 false tok s = (inr response, s1) →
      processed service (default [] (albums response)) s1 t s2 →
      albums_list service 50 false tok s2 = (inr response', s3) →
      truthy (albums_nextPageToken response') = true →
      collected service (albums_nextPageToken response') s3 rest s4 →
      collected service tok s
        (AlbumsList 50 false tok :: t ++ AlbumsList 50 false tok :: rest) s4.


(** A photo is an orphan when its id is outside the membership set. *)
Definition orphan (ids : gset string) (p : item) : Prop :=
  match p !! "id" with
  | Some i => i ∉ ids
  | None => False
  end.

Global Instance orphan_dec ids p : Decision (orphan ids p).
Proof. unfold orphan. destruct (p !! "id"); apply _. Defined.

Definition carries (k : string) (it : item) : Prop := is_Some (it !! k).

Global Instance carries_dec k it : Decision (carries k it).
Proof. unfold carries. apply _. Defined.

Definition image_typed (it : item) : Prop :=
  ∃ m, it !! "mimeType" = Some m ∧ String.prefix "image/" m = true.

(** The member pages a library holds for an album, found by its id. *)
Definition pages_of (L : library) (a : item) : list (list item) :=
  match a !! "id" with
  | Some i => default [] (album_members L !! i)
  | None => []
  end.

(** The member items of an album, and of a list of albums. *)
Definition album_items (L : library) (a : item) : list item :=
  mjoin (pages_of L a).
Definition members_of (L : library) (albums : list item) : list item :=
  albums ≫= album_items L.

(** The albums of a library, in listing order. *)
Definition listed_albums (L : library) : list item := mjoin (album_pages L).

(** The ids carried by the member items of the listed albums. *)
Definition member_ids_of (L : library) (albums : list item) : gset string :=
  list_to_set (page_ids (members_of L albums)).
Definition member_ids (L : library) : gset string :=
  member_ids_of L (listed_albums L).

Definition member_count (L : library) (a : item) : nat :=
  length (album_items L a).

(** The scan [find_album] makes over the listed albums: the first album
    that stops it either lacks a title or bears the wanted one. *)
Fixpoint scan_titles (albums : list item) (album_name : string)
    : outcome (option item) :=
  match albums with
  | [] => Ret None
  | a :: rest =>
      match a !! "title" with
      | None => Raise (KeyError "title")
      | Some t =>
          if decide (t = album_name) then Ret (Some a)
          else scan_titles rest album_name
      end
  end.

(** An album that carries a title other than [album_name]. *)
Definition titled_other (album_name : string) (a : item) : Prop :=
  ∃ t, a !! "title" = Some t ∧ t ≠ album_name.

(** Fuel that lets the collector walk a whole library at rest. *)
Definition enough_fuel (L : library) : nat :=
  (length (photo_pages L) + length (album_pages L)
   + max_list_with (λ a, length (pages_of L a)) (listed_albums L) + 2)%nat.

(** The photos the enumeration finds in a library at rest. *)
Definition enumerated (L : library) : list item :=
  filter (λ it, is_photo it = true) (mjoin (photo_pages L)).

(** The orphans of a library at rest, in enumeration order. *)
Definition orphans_of (L : library) : list item :=
  filter (orphan (member_ids L)) (enumerated L).

(** ** Vocabulary of the further properties *)

(** The three kinds of request that only read the library. *)
Definition photo_listing (r : request) : Prop :=
  ∃ tok, r = MediaItemsList 100 tok.
Definition album_listing (r : request) : Prop :=
  ∃ tok, r = AlbumsList 50 false tok.
Definition member_search (r : request) : Prop :=
  ∃ album_id tok, r = MediaItemsSearch album_id 50 tok.
Definition reads_library (r : request) : Prop :=
  photo_listing r ∨ album_listing r ∨ member_search r.

(** A computation that, however it ends, has sent only requests in [P] and
    printed nothing. *)
Definition emits {St A} (P : request → Prop) (m : M St A) : Prop :=
  ∀ w, ∃ t, trace (snd (m w)) = trace w ++ t ∧ Forall P t ∧
            stdout (snd (m w)) = stdout w.

(** The page tokens a walk over [n] pages of a library at rest sends: none
    for the first page, then the tokens of pages 1 to [n - 1]. *)
Definition tokens_after (k n : nat) : list (option string) :=
  (λ j, Some (token_of j)) <$> seq (S k) n.
Definition page_tokens (n : nat) : list (option string) :=
  None :: tokens_after 0 (n - 1).

(** An album that carries its id followed by one that has only a title. *)
Definition idless_album_library : library :=
  Library []
          [[album "a1" "Vacation"; {[ "title" := "Untitled" ]}]]
          {[ "a1" := [[member "p1"]] ]}.

(** The lines [get_and_move_items_no_album] prints before it validates:
    the heading with the batch size, and one line per candidate. *)
Definition listing_line (batch_size : Z) : string :=
  "Listing up to " +:+ pretty batch_size
  +:+ " photos that are not in any album:" +:+ newline.
Definition photo_line (photo : item) : string :=
  "Filename: " +:+ default "" (photo !! "filename")
  +:+ " | ID: " +:+ default "" (photo !! "id").

(** A service whose single-item look-up never answers with an item: it
    raises or returns an empty result. *)
Definition finds_nothing {St} (service : Service St) : Prop :=
  ∀ media_id s,
    match fst (mediaItems_get service media_id s) with
    | inl _ => True
    | inr media_item => media_item = ∅
    end.

(** A library at rest whose items can be listed but no longer looked up. *)
Definition vanished_service (L : library) : Service unit := {|
  mediaItems_list := mediaItems_list (library_service L no_faults);
  mediaItems_search := mediaItems_search (library_service L no_faults);
  mediaItems_get := λ _ s, (inl (HttpError "404 Not Found"), s);
  albums_list := albums_list (library_service L no_faults);
  albums_get := albums_get (library_service L no_faults);
  albums_batchAddMediaItems :=
    albums_batchAddMediaItems (library_service L no_faults)
|}.

(** An id carried by some item of the photo listing of a library. *)
Definition listed_id (L : library) (i : string) : Prop :=
  ∃ p : item, p ∈ mjoin (photo_pages L) ∧ p !! "id" = Some i.

(** ** Album creation

    [create_shareable_album] uses two endpoints of their own.  Their
    requests are logged beside the service state; the share response is an
    object of objects, of which the script reads
    [shared_album['shareInfo']['shareableUrl']]. *)

Inductive admin_request : Type :=
  | AlbumsCreate (title : string)
  | AlbumsShare (albumId : string) (isCollaborative isCommentable : bool).

Record Admin (St : Type) : Type := MkAdmin {
  albums_create : string → St → (exn + item) * St;
  albums_share : string → bool → bool → St → (exn + gmap string item) * St
}.
Arguments MkAdmin {St}.
Arguments albums_create {St}.
Arguments albums_share {St}.

(** [service.albums().<endpoint>(...).execute()] *)
Definition admin_execute {St R} (req : admin_request)
    (ep : St → (exn + R) * St) : M (St * list admin_request) R := λ w,
  let '(r, s') := ep (fst (svc w)) in
  let w' := World (s', snd (svc w) ++ [req]) (trace w) (stdout w) in
  match r with
  | inl e => (Raise e, w')
  | inr v => (Ret v, w')
  end.

(** [d[k]] for an object of objects. *)
Definition getobj {St} (d : gmap string item) (k : string) : M St item :=
  match d !! k with
  | Some v => mret v
  | None => raise (KeyError k)
  end.

Definition created_line (album_title album_id : string) : string :=
  "Created shareable album '" +:+ album_title +:+ "' with ID: " +:+ album_id.

Definition create_shareable_album {St} (admin : Admin St)
    (album_title : string) : M (St * list admin_request) (string * string) :=
  created_album ← admin_execute (AlbumsCreate album_title)
                                (albums_create admin album_title);
  album_id ← getitem created_album "id";
  shared_album ← admin_execute (AlbumsShare album_id true true)
                               (albums_share admin album_id true true);
  share_info ← getobj shared_album "shareInfo";
  shareable_url ← getitem share_info "shareableUrl";
  print (created_line album_title album_id) ;;
  mret (album_id, shareable_url).

(** An album service that numbers the albums it creates and refuses to
    share the ones whose title is in [unshareable]. *)
Definition counting_admin (unshareable : gset string) : Admin (list string) := {|
  albums_create := λ title s,
    (inr {[ "id" := "album-" +:+ pretty (length s); "title" := title ]},
     s ++ [title]);
  albums_share := λ album_id _ _ s,
    (match list_find (λ t, t ∈ unshareable) s with
     | Some _ => inl (HttpError "403 Forbidden")
     | None =>
         inr {[ "shareInfo" :=
                  {[ "shareableUrl" := "https://photos.example/" +:+ album_id ]} ]}
     end, s)
|}.

Definition no_albums : world (list string * list admin_request) :=
  World ([], []) [] [].

(** An album service whose share response carries no [shareInfo]. *)
Definition unshared_admin : Admin unit := {|
  albums_create := λ title s, (inr {[ "id" := "a1"; "title" := title ]}, s);
  albums_share := λ _ _ _ s, (inr ∅, s)
|}.

(** ** Authentication

    [authenticate_google_photos] goes through the credential library.  Of a
    [Credentials] object the script reads [valid], [expired] and
    [refresh_token]; the library calls are the fields of [Auth], those that
    reach the network or the user threading the state [St] of the outside
    world and failing with an exception of type [E].  [creds.refresh]
    updates the object in place, here it answers the updated credentials.
    Of the file system the script touches [token.json] only: [None] is a
    missing file, and writing it is taken to succeed. *)

Record credentials : Type := Credentials {
  valid : bool;
  expired : bool;
  refresh_token : option string
}.

Record Auth (E St Svc : Type) : Type := MkAuth {
  from_authorized_user_file : string → E + credentials;
  refresh : credentials → St → (E + credentials) * St;
  run_local_server : St → (E + credentials) * St;
  to_json : credentials → string;
  build : credentials → St → (E + Svc) * St
}.
Arguments MkAuth {E St Svc}.
Arguments from_authorized_user_file {E St Svc}.
Arguments refresh {E St Svc}.
Arguments run_local_server {E St Svc}.
Arguments to_json {E St Svc}.
Arguments build {E St Svc}.

Record auth_state (St : Type) : Type := AuthState {
  token_json : option string;
  outside : St
}.
Arguments AuthState {St}.
Arguments token_json {St}.
Arguments outside {St}.

(** Lines 15-16: [creds] is [None] unless [token.json] exists. *)
Definition load_token {E St Svc} (lib : Auth E St Svc) (s : auth_state St)
    : E + option credentials :=
  match token_json s with
  | Some content =>
      match from_authorized_user_file lib content with
      | inl e => inl e
      | inr creds => inr (Some creds)
      end
  | None => inr None
  end.

(** Lines 18-22: refresh what can be refreshed, else ask the user. *)
Definition renew {E St Svc} (lib : Auth E St Svc) (creds : option credentials)
    (o : St) : (E + credentials) * St :=
  match creds with
  | Some c =>
      if expired c && truthy (refresh_token c)
      then refresh lib c o
      else run_local_server lib o
  | None => run_local_server lib o
  end.

(** Lines 27-33. *)
Definition build_service {E St Svc} (lib : Auth E St Svc) (creds : credentials)
    (token : option string) (o : St) : (E + Svc) * auth_state St :=
  let '(r, o') := build lib creds o in (r, AuthState token o').

(** Lines 17-24, then the build. *)
Definition renew_and_build {E St Svc} (lib : Auth E St Svc)
    (creds : option credentials) (s : auth_state St)
    : (E + Svc) * auth_state St :=
  match renew lib creds (outside s) with
  | (inl e, o) => (inl e, AuthState (token_json s) o)
  | (inr c, o) => build_service lib c (Some (to_json lib c)) o
  end.

Definition authenticate_google_photos {E St Svc} (lib : Auth E St Svc)
    (s : auth_state St) : (E + Svc) * auth_state St :=
  match load_token lib s with
  | inl e => (inl e, s)
  | inr None => renew_and_build lib None s
  | inr (Some c) =>
      if valid c
      then build_service lib c (token_json s) (outside s)
      else renew_and_build lib (Some c) s
  end.

(** A credential library for the examples.  The outside world is the log
    of what was asked of it; the content of [token.json] is the refresh
    token, with [valid:] in front when the access token is still good, or
    [access-only] when there is none; a refresh succeeds unless the refresh token is [revoked]; the user grants
    the refresh token [granted]; a service is the credentials it was built
    from. *)
Definition example_auth : Auth string (list string) credentials := {|
  from_authorized_user_file := λ content,
    match content with
    | "" => inl "ValueError"
    | "access-only" => inr (Credentials false true None)
    | _ => inr (if String.prefix "valid:" content
                then Credentials true false (Some (String.substring 6 (String.length content - 6) content))
                else Credentials false true (Some content))
    end;
  refresh := λ c o,
    (if decide (refresh_token c = Some "revoked")
     then inl "RefreshError"
     else inr (Credentials true false (refresh_token c)),
     o ++ ["refresh"]);
  run_local_server := λ o,
    (inr (Credentials true false (Some "granted")), o ++ ["run_local_server"]);
  to_json := λ c, "valid:" +:+ default "" (refresh_token c);
  build := λ c o, (inr c, o ++ ["build"])
|}.

(** ** Basic facts about the monad *)

Ltac unfold_M :=
  unfold mbind, M_bind, mret, M_ret, raise, out_of_fuel, print in *.

Section Facts.
Context {St : Type} (service : Service St).

Lemma bind_Ret {A B} (m : M St A) (f : A → M St B) w a w1 :
  m w = (Ret a, w1) → (m ≫= f) w = f a w1.
Proof. intros H. unfold_M. by rewrite H. Qed.

Lemma bind_Raise {A B} (m : M St A) (f : A → M St B) w e w1 :
  m w = (Raise e, w1) → (m ≫= f) w = (Raise e, w1).
Proof. intros H. unfold_M. by rewrite H. Qed.

Lemma bind_OutOfFuel {A B} (m : M St A) (f : A → M St B) w w1 :
  m w = (OutOfFuel, w1) → (m ≫= f) w = (OutOfFuel, w1).
Proof. intros H. unfold_M. by rewrite H. Qed.

Lemma bind_Ret_inv {A B} (m : M St A) (f : A → M St B) w b w2 :
  (m ≫= f) w = (Ret b, w2) →
  ∃ a w1, m w = (Ret a, w1) ∧ f a w1 = (Ret b, w2).
Proof.
  unfold_M. destruct (m w) as [[a|e|] w1]; intros H; try discriminate.
  by exists a, w1.
Qed.

Lemma getitem_Some (d : item) k v (w : world St) :
  d !! k = Some v → getitem d k w = (Ret v, w).
Proof. intros H. unfold getitem. by rewrite H. Qed.

Lemma not_in_album_run ids (p : item) i (w : world St) :
  p !! "id" = Some i →
  not_in_album ids p w = (Ret (bool_decide (i ∉ ids)), w).
Proof. intros Hi. unfold not_in_album, getitem. by rewrite Hi. Qed.

Lemma not_in_album_KeyError ids (p : item) (w : world St) :
  p !! "id" = None →
  not_in_album ids p w = (Raise (KeyError "id"), w).
Proof. intros Hi. unfold not_in_album, getitem. by rewrite Hi. Qed.

(** The orphan comprehension reads [photo['id']] of every photo, touches
    nothing else, and keeps the orphans in order. *)
Lemma filterM_not_in_album ids (l : list item) (w : world St) :
  Forall (carries "id") l →
  filterM (not_in_album ids) l w = (Ret (filter (orphan ids) l), w).
Proof.
  induction 1 as [|p l [i Hi] _ IH]; [done|].
  cbn [filterM].
  rewrite (bind_Ret _ _ _ _ _ (not_in_album_run ids p i w Hi)).
  rewrite (bind_Ret _ _ _ _ _ IH).
  rewrite filter_cons. unfold_M. f_equal. f_equal.
  destruct (decide (i ∉ ids)) as [Hin|Hin].
  - rewrite bool_decide_eq_true_2 by done.
    rewrite decide_True; [done|]. unfold orphan. by rewrite Hi.
  - rewrite bool_decide_eq_false_2 by done.
    rewrite decide_False; [done|]. unfold orphan. by rewrite Hi.
Qed.

(** A photo without [id] makes the comprehension raise. *)
Lemma filterM_not_in_album_KeyError ids (l : list item) (w : world St) :
  ¬ Forall (carries "id") l →
  filterM (not_in_album ids) l w = (Raise (KeyError "id"), w).
Proof.
  induction l as [|p l IH]; intros Hno.
  - by destruct Hno.
  - cbn [filterM].
    destruct (p !! "id") as [i|] eqn:Hi.
    + rewrite (bind_Ret _ _ _ _ _ (not_in_album_run ids p i w Hi)).
      apply bind_Raise, IH. intros Hl. apply Hno.
      constructor; [by exists i|done].
    + by apply bind_Raise, not_in_album_KeyError.
Qed.

(** Every photo that leaves [get_all_photos] passed its comprehension. *)
Lemma get_all_photos_loop_is_photo fuel acc tok w r w' :
  Forall (λ it, is_photo it = true) acc →
  get_all_photos_loop service fuel acc tok w = (Ret r, w') →
  Forall (λ it, is_photo it = true) r.
Proof.
  revert acc tok w. induction fuel as [|fuel IH]; intros acc tok w Hacc; [done|].
  cbn [get_all_photos_loop]. intros H.
  apply bind_Ret_inv in H as (results & w1 & _ & H).
  assert (Hacc' : Forall (λ it, is_photo it = true)
    (acc ++ filter (λ it, is_photo it = true) (default [] (mediaItems results)))).
  { apply Forall_app. split; [done|]. apply Forall_forall. intros x Hx.
    by apply list_elem_of_filter in Hx as [? _]. }
  destruct (negb (truthy (items_nextPageToken results))).
  - unfold_M. by inversion H; subst.
  - by eapply IH.
Qed.

Lemma is_photo_spec it :
  is_photo it = true ↔ image_typed it ∧ carries "filename" it.
Proof.
  unfold is_photo, image_typed, carries.
  destruct (it !! "mimeType") as [m|].
  - rewrite andb_true_iff, bool_decide_eq_true. split.
    + intros [Hp Hf]. split; [by exists m|done].
    + intros [(m' & Hm & Hp) Hf]. by simplify_eq.
  - split; [done|]. by intros [(m & Hm & _) _].
Qed.

Lemma get_all_photos_is_photo fuel w r w' :
  get_all_photos service fuel w = (Ret r, w') →
  Forall (λ it, image_typed it ∧ carries "filename" it) r.
Proof.
  intros H. eapply Forall_impl.
  - eapply get_all_photos_loop_is_photo; [|exact H]. constructor.
  - intros it. by rewrite is_photo_spec.
Qed.

Lemma slice_to_nonneg {A} (l : list A) n :
  0 ≤ n → slice_to l n = take (Z.to_nat n) l.
Proof. intros. unfold slice_to. by rewrite decide_True. Qed.

Lemma slice_to_neg {A} (l : list A) n :
  n < 0 → slice_to l n = take (length l - Z.to_nat (- n)) l.
Proof.
  intros. unfold slice_to. rewrite decide_False by lia. f_equal. lia.
Qed.

(** What [get_items_no_album] returns once both collectors have
    returned and every enumerated photo carries its id. *)
Lemma get_items_no_album_run fuel batch_size w all_photos w1 ids w2 :
  get_all_photos service fuel w = (Ret all_photos, w1) →
  get_album_item_ids service fuel w1 = (Ret ids, w2) →
  Forall (carries "id") all_photos →
  get_items_no_album service fuel batch_size w
  = (Ret (slice_to (filter (orphan ids) all_photos) batch_size), w2).
Proof.
  intros H1 H2 Hid. unfold get_items_no_album.
  rewrite (bind_Ret _ _ _ _ _ H1), (bind_Ret _ _ _ _ _ H2).
  by rewrite (bind_Ret _ _ _ _ _ (filterM_not_in_album ids _ w2 Hid)).
Qed.

End Facts.

Lemma photo_carries_id i : carries "id" (photo i).
Proof. exists i. unfold photo. apply lookup_insert_eq. Qed.

(** ** The validation and move phases *)

Section Mutator.
Context {St : Type} (service : Service St).

Lemma validate_one_error valid_ids media_id (w : world St) e s' :
  mediaItems_get service media_id (svc w) = (inl e, s') →
  validate_one service valid_ids media_id w
  = (Ret valid_ids,
     after w (MediaItemsGet media_id) s' [invalid_line media_id e]).
Proof.
  intros H. unfold validate_one, try_except, mediaItems_get_execute, execute.
  unfold_M. by rewrite H.
Qed.

Lemma validate_one_empty valid_ids media_id (w : world St) s' :
  mediaItems_get service media_id (svc w) = (inr ∅, s') →
  validate_one service valid_ids media_id w
  = (Ret valid_ids,
     after w (MediaItemsGet media_id) s' [not_found_line media_id]).
Proof.
  intros H. unfold validate_one, try_except, mediaItems_get_execute, execute.
  unfold_M. by rewrite H.
Qed.

Lemma validate_one_valid valid_ids media_id (w : world St) media_item s' :
  mediaItems_get service media_id (svc w) = (inr media_item, s') →
  media_item ≠ ∅ →
  validate_one service valid_ids media_id w
  = (Ret (valid_ids ++ [media_id]),
     after w (MediaItemsGet media_id) s' [valid_line media_id media_item]).
Proof.
  intros H Hne. unfold validate_one, try_except, mediaItems_get_execute, execute.
  unfold_M. rewrite H. by rewrite decide_True.
Qed.

(** One validation step always completes: it records its look-up, prints
    one line, and keeps or extends the list of valid ids. *)
Lemma validate_one_total valid_ids media_id (w : world St) :
  ∃ valid_ids' s' line,
    validate_one service valid_ids media_id w
    = (Ret valid_ids', after w (MediaItemsGet media_id) s' [line]) ∧
    (valid_ids' = valid_ids ∨ valid_ids' = valid_ids ++ [media_id]).
Proof.
  destruct (mediaItems_get service media_id (svc w)) as [[e|it] s'] eqn:H.
  - eexists _, _, _. split; [by apply validate_one_error|by left].
  - destruct (decide (it = ∅)) as [->|Hne].
    + eexists _, _, _. split; [by apply validate_one_empty|by left].
    + eexists _, _, _. split; [by eapply validate_one_valid|by right].
Qed.

Lemma validate_ids_total media_item_ids : ∀ valid_ids (w : world St),
  ∃ found w',
    validate_ids service valid_ids media_item_ids w
    = (Ret (valid_ids ++ found), w') ∧
    sublist found media_item_ids ∧
    trace w' = trace w ++ (MediaItemsGet <$> media_item_ids) ∧
    length (stdout w') = (length (stdout w) + length media_item_ids)%nat.
Proof.
  induction media_item_ids as [|i rest IH]; intros valid_ids w.
  - exists [], w. rewrite !app_nil_r. cbn. repeat split; [done|lia].
  - destruct (validate_one_total valid_ids i w) as (v1 & s1 & line & H1 & Hv).
    destruct (IH v1 (after w (MediaItemsGet i) s1 [line]))
      as (found & w' & H2 & Hsub & Htr & Hout).
    cbn [validate_ids]. rewrite (bind_Ret _ _ _ _ _ H1), H2.
    cbn in Htr, Hout. rewrite length_app in Hout. cbn in Hout.
    destruct Hv as [->| ->].
    + exists found, w'. repeat split; [by constructor| |cbn; lia].
      by rewrite Htr, <-app_assoc.
    + exists (i :: found), w'. rewrite <-app_assoc.
      repeat split; [by constructor| |cbn; lia].
      by rewrite Htr, <-app_assoc.
Qed.

Lemma move_one_error album_id valid_id (w : world St) e s' :
  albums_batchAddMediaItems service album_id [valid_id] (svc w) = (inl e, s') →
  move_one service album_id valid_id w
  = (Ret (), after w (add_request album_id valid_id) s'
               [move_error_line valid_id e]).
Proof.
  intros H. unfold move_one, try_except, albums_batchAddMediaItems_execute, execute.
  unfold_M. by rewrite H.
Qed.

Lemma move_one_moved album_id valid_id (w : world St) r s' :
  albums_batchAddMediaItems service album_id [valid_id] (svc w) = (inr r, s') →
  move_one service album_id valid_id w
  = (Ret (), after w (add_request album_id valid_id) s'
               [moved_line valid_id album_id]).
Proof.
  intros H. unfold move_one, try_except, albums_batchAddMediaItems_execute, execute.
  unfold_M. by rewrite H.
Qed.

Lemma move_one_total album_id valid_id (w : world St) :
  ∃ s' line,
    move_one service album_id valid_id w
    = (Ret (), after w (add_request album_id valid_id) s' [line]).
Proof.
  destruct (albums_batchAddMediaItems service album_id [valid_id] (svc w))
    as [[e|r] s'] eqn:H.
  - eexists _, _. by apply move_one_error.
  - eexists _, _. by eapply move_one_moved.
Qed.

Lemma move_ids_total album_id valid_ids : ∀ w : world St,
  ∃ w',
    move_ids service album_id valid_ids w = (Ret (), w') ∧
    trace w' = trace w ++ (add_request album_id <$> valid_ids) ∧
    length (stdout w') = (length (stdout w) + length valid_ids)%nat.
Proof.
  unfold move_ids.
  induction valid_ids as [|i rest IH]; intros w.
  - exists w. rewrite app_nil_r. cbn. repeat split. lia.
  - destruct (move_one_total album_id i w) as (s1 & line & H1).
    destruct (IH (after w (add_request album_id i) s1 [line]))
      as (w' & H2 & Htr & Hout).
    cbn [for_each]. rewrite (bind_Ret _ _ _ _ _ H1), H2.
    cbn in Htr, Hout. rewrite length_app in Hout. cbn in Hout.
    exists w'. repeat split; [|cbn; lia].
    by rewrite Htr, <-app_assoc.
Qed.

(** The validation loop looks up every id, whatever the answers, and keeps
    the ids the answers validate. *)
Lemma validate_ids_lookups media_item_ids : ∀ valid_ids (w : world St),
  validate_ids service valid_ids media_item_ids w
  = (Ret (valid_ids ++ valid_of (lookups service media_item_ids (svc w)).1),
     World (lookups service media_item_ids (svc w)).2
       (trace w ++ (MediaItemsGet <$> media_item_ids))
       (stdout w ++ (lookup_line <$> (lookups service media_item_ids (svc w)).1))).
Proof.
  induction media_item_ids as [|i rest IH]; intros valid_ids w.
  - cbn. rewrite !app_nil_r. by destruct w.
  - cbn [validate_ids lookups].
    destruct (mediaItems_get service i (svc w)) as [[e|it] s'] eqn:Hget.
    + rewrite (bind_Ret _ _ _ _ _ (validate_one_error _ _ _ _ _ Hget)), IH.
      cbn [svc trace stdout after].
      destruct (lookups service rest s') as [looked s'']. cbn.
      by rewrite <-!app_assoc.
    + destruct (decide (it = ∅)) as [->|Hne].
      * rewrite (bind_Ret _ _ _ _ _ (validate_one_empty _ _ _ _ Hget)), IH.
        cbn [svc trace stdout after].
        destruct (lookups service rest s') as [looked s'']. cbn.
        rewrite bool_decide_false by (by intros ?). cbn.
        by rewrite <-!app_assoc.
      * rewrite (bind_Ret _ _ _ _ _ (validate_one_valid _ _ _ _ _ Hget Hne)), IH.
        cbn [svc trace stdout after].
        destruct (lookups service rest s') as [looked s'']. cbn.
        unfold lookup_line at 1. cbn. rewrite bool_decide_true by done. cbn.
        by rewrite <-!app_assoc.
Qed.

(** The move loop submits every id, whatever the answers. *)
Lemma move_ids_additions album_id valid_ids : ∀ w : world St,
  move_ids service album_id valid_ids w
  = (Ret (),
     World (additions service album_id valid_ids (svc w)).2
       (trace w ++ (add_request album_id <$> valid_ids))
       (stdout w
        ++ (add_line album_id <$> (additions service album_id valid_ids (svc w)).1))).
Proof.
  unfold move_ids.
  induction valid_ids as [|i rest IH]; intros w.
  - cbn. rewrite !app_nil_r. by destruct w.
  - cbn [for_each additions].
    destruct (albums_batchAddMediaItems service album_id [i] (svc w))
      as [[e|r] s'] eqn:Hadd.
    + rewrite (bind_Ret _ _ _ _ _ (move_one_error _ _ _ _ _ Hadd)), IH.
      cbn [svc trace stdout after].
      destruct (additions service album_id rest s') as [added s'']. cbn.
      by rewrite <-!app_assoc.
    + rewrite (bind_Ret _ _ _ _ _ (move_one_moved _ _ _ _ _ Hadd)), IH.
      cbn [svc trace stdout after].
      destruct (additions service album_id rest s') as [added s'']. cbn.
      by rewrite <-!app_assoc.
Qed.

Lemma lookups_ids media_item_ids : ∀ s : St,
  (lookups service media_item_ids s).1.*1 = media_item_ids.
Proof.
  induction media_item_ids as [|i rest IH]; intros s; [done|].
  cbn [lookups]. destruct (mediaItems_get service i s) as [r s'].
  specialize (IH s'). destruct (lookups service rest s') as [looked s''].
  cbn in *. by rewrite IH.
Qed.

Lemma additions_ids album_id valid_ids : ∀ s : St,
  (additions service album_id valid_ids s).1.*1 = valid_ids.
Proof.
  induction valid_ids as [|i rest IH]; intros s; [done|].
  cbn [additions].
  destruct (albums_batchAddMediaItems service album_id [i] s) as [r s'].
  specialize (IH s'). destruct (additions service album_id rest s') as [added s''].
  cbn in *. by rewrite IH.
Qed.

End Mutator.

(** ** The whole move operation *)

Section Move.
Context {St : Type} (service : Service St).

Lemma Forall_sublist {A} (P : A → Prop) (k l : list A) :
  sublist k l → Forall P l → Forall P k.
Proof.
  induction 1 as [|x k l _ IH|x k l _ IH]; intros Hl; [done| |].
  - apply Forall_cons in Hl as [? ?]. constructor; auto.
  - apply Forall_cons in Hl as [? ?]. auto.
Qed.

Lemma slice_to_sublist {A} (l : list A) n : sublist (slice_to l n) l.
Proof. unfold slice_to. destruct (decide (0 ≤ n)); apply sublist_take. Qed.

Lemma print_photo_run (photo : item) (w : world St) :
  carries "filename" photo → carries "id" photo →
  ∃ line, print_photo photo w
          = (Ret (), World (svc w) (trace w) (stdout w ++ [line])).
Proof.
  intros [f Hf] [i Hi]. unfold print_photo, getitem. rewrite Hf, Hi.
  by eexists.
Qed.

Lemma print_photos_run (photos : list item) : ∀ w : world St,
  Forall (carries "filename") photos → Forall (carries "id") photos →
  ∃ lines, for_each photos print_photo w
           = (Ret (), World (svc w) (trace w) (stdout w ++ lines)).
Proof.
  induction photos as [|p l IH]; intros w Hf Hi.
  - exists []. by rewrite app_nil_r; destruct w.
  - apply Forall_cons in Hf as [Hf Hfl]. apply Forall_cons in Hi as [Hi Hil].
    destruct (print_photo_run p w Hf Hi) as [line H1].
    destruct (IH (World (svc w) (trace w) (stdout w ++ [line])) Hfl Hil)
      as [lines H2].
    exists (line :: lines). cbn [for_each].
    rewrite (bind_Ret _ _ _ _ _ H1), H2. cbn. by rewrite <-app_assoc.
Qed.

Lemma mapM_getitem_id (photos : list item) (w : world St) :
  Forall (carries "id") photos →
  mapM (λ photo, getitem photo "id") photos w = (Ret (ids_of photos), w).
Proof.
  induction 1 as [|p l [i Hi] _ IH]; [done|].
  cbn [mapM]. rewrite (bind_Ret _ _ _ _ _ (getitem_Some p "id" i w Hi)).
  rewrite (bind_Ret _ _ _ _ _ IH). unfold ids_of. cbn. by rewrite Hi.
Qed.

(** Lines 133 to 162 never raise: every candidate is looked up, and every
    id found valid is submitted to the target album. *)
Lemma validate_and_move_total album_id (photos_to_move : list item)
    (w : world St) :
  Forall (carries "id") photos_to_move →
  ∃ found w',
    validate_and_move service album_id photos_to_move w = (Ret (), w') ∧
    sublist found (ids_of photos_to_move) ∧
    trace w' = trace w ++ (MediaItemsGet <$> ids_of photos_to_move)
                       ++ (add_request album_id <$> found).
Proof.
  intros Hid. unfold validate_and_move.
  destruct photos_to_move as [|p l] eqn:Hl.
  - exists [], (World (svc w) (trace w)
                 (stdout w ++ ["No photos without an album were found."])).
    cbn. by rewrite app_nil_r.
  - rewrite <-Hl in *. clear Hl.
    rewrite (bind_Ret _ _ _ _ _ (mapM_getitem_id _ w Hid)).
    destruct (validate_ids_total service (ids_of photos_to_move) [] w)
      as (found & w1 & H1 & Hsub & Htr & _).
    rewrite (bind_Ret _ _ _ _ _ H1). cbn [app] in *.
    exists found. destruct found as [|i found'].
    + eexists. split; [reflexivity|]. cbn. by rewrite Htr, app_nil_r.
    + destruct (move_ids_total service album_id (i :: found') w1)
        as (w2 & H2 & Htr2 & _).
      exists w2. split; [done|]. split; [done|].
      by rewrite Htr2, Htr, <-app_assoc.
Qed.

(** The move operation once both collectors have returned and every
    enumerated photo carries its id. *)
Lemma get_and_move_items_no_album_run fuel album_id batch_size
    w all_photos w1 ids w2 :
  get_all_photos service fuel w = (Ret all_photos, w1) →
  get_album_item_ids service fuel w1 = (Ret ids, w2) →
  Forall (carries "id") all_photos →
  let photos_to_move := slice_to (filter (orphan ids) all_photos) batch_size in
  ∃ found w3,
    get_and_move_items_no_album service fuel album_id batch_size w
    = (Ret photos_to_move, w3) ∧
    sublist found (ids_of photos_to_move) ∧
    trace w3 = trace w2 ++ (MediaItemsGet <$> ids_of photos_to_move)
                        ++ (add_request album_id <$> found).
Proof.
  intros H1 H2 Hid photos_to_move.
  assert (Hsub : sublist photos_to_move all_photos).
  { etrans; [apply slice_to_sublist|apply sublist_filter]. }
  assert (Hid' : Forall (carries "id") photos_to_move).
  { by eapply Forall_sublist. }
  assert (Hfn : Forall (carries "filename") photos_to_move).
  { eapply Forall_sublist; [done|].
    eapply Forall_impl; [by eapply get_all_photos_is_photo|]. by intros ? [_ ?]. }
  unfold get_and_move_items_no_album.
  rewrite (bind_Ret _ _ _ _ _ H1), (bind_Ret _ _ _ _ _ H2).
  rewrite (bind_Ret _ _ _ _ _ (filterM_not_in_album ids _ w2 Hid)).
  fold photos_to_move.
  set (w2a := World (svc w2) (trace w2)
                (stdout w2 ++ ["Listing up to " +:+ pretty batch_size
                   +:+ " photos that are not in any album:" +:+ newline])).
  assert (Hp : print ("Listing up to " +:+ pretty batch_size
                 +:+ " photos that are not in any album:" +:+ newline) w2
               = (Ret (), w2a)) by done.
  rewrite (bind_Ret _ _ _ _ _ Hp).
  destruct (print_photos_run photos_to_move w2a Hfn Hid') as [lines H3].
  rewrite (bind_Ret _ _ _ _ _ H3).
  destruct (validate_and_move_total album_id photos_to_move
              (World (svc w2a) (trace w2a) (stdout w2a ++ lines)) Hid')
    as (found & w3 & H4 & Hfound & Htr).
  rewrite (bind_Ret _ _ _ _ _ H4). by exists found, w3.
Qed.

(** The returned value (or raised exception) of the move operation is
    that of the orphan resolver. *)
Lemma get_and_move_items_no_album_outcome fuel album_id batch_size w :
  fst (get_and_move_items_no_album service fuel album_id batch_size w)
  = fst (get_items_no_album service fuel batch_size w).
Proof.
  destruct (get_all_photos service fuel w) as [[all_photos|e|] w1] eqn:H1.
  2:{ unfold get_and_move_items_no_album, get_items_no_album.
      by rewrite !(bind_Raise _ _ _ _ _ H1). }
  2:{ unfold get_and_move_items_no_album, get_items_no_album.
      by rewrite !(bind_OutOfFuel _ _ _ _ H1). }
  destruct (get_album_item_ids service fuel w1) as [[ids|e|] w2] eqn:H2.
  2:{ unfold get_and_move_items_no_album, get_items_no_album.
      rewrite !(bind_Ret _ _ _ _ _ H1). by rewrite !(bind_Raise _ _ _ _ _ H2). }
  2:{ unfold get_and_move_items_no_album, get_items_no_album.
      rewrite !(bind_Ret _ _ _ _ _ H1). by rewrite !(bind_OutOfFuel _ _ _ _ H2). }
  destruct (decide (Forall (carries "id") all_photos)) as [Hid|Hno].
  - destruct (get_and_move_items_no_album_run fuel album_id batch_size
                _ _ _ _ _ H1 H2 Hid) as (found & w3 & -> & _).
    by rewrite (get_items_no_album_run service fuel batch_size _ _ _ _ _ H1 H2 Hid).
  - unfold get_and_move_items_no_album, get_items_no_album.
    rewrite !(bind_Ret _ _ _ _ _ H1), !(bind_Ret _ _ _ _ _ H2).
    by rewrite !(bind_Raise _ _ _ _ _
                   (filterM_not_in_album_KeyError ids _ w2 Hno)).
Qed.

Lemma print_photos_lines (photos : list item) : ∀ w : world St,
  Forall (carries "filename") photos → Forall (carries "id") photos →
  for_each photos (print_photo (St:=St)) w
  = (Ret (), World (svc w) (trace w) (stdout w ++ (photo_line <$> photos))).
Proof.
  induction photos as [|p l IH]; intros w Hf Hi.
  - cbn. by rewrite app_nil_r; destruct w.
  - apply Forall_cons in Hf as [[f Hf] Hfl]. apply Forall_cons in Hi as [[i Hi] Hil].
    cbn [for_each].
    assert (H1 : print_photo p w
                 = (Ret (), World (svc w) (trace w) (stdout w ++ [photo_line p]))).
    { unfold print_photo, getitem, photo_line. by rewrite Hf, Hi. }
    rewrite (bind_Ret _ _ _ _ _ H1), IH by done. cbn. by rewrite <-app_assoc.
Qed.

(** The move operation is its validate-and-move phase run after the
    heading and the candidate lines. *)
Lemma get_and_move_items_no_album_phases fuel album_id batch_size
    w all_photos w1 ids w2 :
  get_all_photos service fuel w = (Ret all_photos, w1) →
  get_album_item_ids service fuel w1 = (Ret ids, w2) →
  Forall (carries "id") all_photos →
  let candidates := slice_to (filter (orphan ids) all_photos) batch_size in
  get_and_move_items_no_album service fuel album_id batch_size w
  = (validate_and_move service album_id candidates ;; mret candidates)
      (World (svc w2) (trace w2)
         (stdout w2 ++ listing_line batch_size :: (photo_line <$> candidates))).
Proof.
  intros H1 H2 Hid candidates.
  assert (Hsub : sublist candidates all_photos).
  { etrans; [apply slice_to_sublist|apply sublist_filter]. }
  assert (Hid' : Forall (carries "id") candidates).
  { by eapply Forall_sublist. }
  assert (Hfn : Forall (carries "filename") candidates).
  { eapply Forall_sublist; [done|].
    eapply Forall_impl; [by eapply get_all_photos_is_photo|]. by intros ? [_ ?]. }
  unfold get_and_move_items_no_album.
  rewrite (bind_Ret _ _ _ _ _ H1), (bind_Ret _ _ _ _ _ H2).
  rewrite (bind_Ret _ _ _ _ _ (filterM_not_in_album ids _ w2 Hid)).
  fold candidates.
  assert (Hp : print (listing_line batch_size) w2
               = (Ret (), World (svc w2) (trace w2)
                            (stdout w2 ++ [listing_line batch_size]))) by done.
  unfold listing_line in Hp at 1. rewrite (bind_Ret _ _ _ _ _ Hp).
  rewrite (bind_Ret _ _ _ _ _ (print_photos_lines candidates _ Hfn Hid')).
  cbn [svc trace stdout]. by rewrite <-app_assoc.
Qed.

(** Lines 133 to 162 on candidates that carry their ids: every candidate
    is looked up, every id so validated is submitted, and every answer is
    reported. *)
Lemma validate_and_move_run album_id (photos_to_move : list item)
    (w : world St) :
  Forall (carries "id") photos_to_move →
  let looked := lookups service (ids_of photos_to_move) (svc w) in
  let added := additions service album_id (valid_of looked.1) looked.2 in
  validate_and_move service album_id photos_to_move w
  = (Ret (),
     World added.2
       (trace w ++ (MediaItemsGet <$> ids_of photos_to_move)
                ++ (add_request album_id <$> valid_of looked.1))
       (stdout w ++ mutator_lines album_id photos_to_move looked.1 added.1)).
Proof.
  intros Hid. cbv zeta. unfold validate_and_move, mutator_lines.
  destruct photos_to_move as [|p l] eqn:Hl.
  - cbn. by rewrite app_nil_r.
  - rewrite <-Hl in *. clear Hl.
    rewrite (bind_Ret _ _ _ _ _ (mapM_getitem_id _ w Hid)).
    rewrite (bind_Ret _ _ _ _ _ (validate_ids_lookups service _ [] w)).
    cbn [app]. set (looked := lookups service (ids_of photos_to_move) (svc w)).
    destruct (valid_of looked.1) as [|i valid_ids] eqn:Hvalid.
    + unfold print. cbn. by rewrite app_nil_r, <-app_assoc.
    + rewrite move_ids_additions. cbn [svc trace stdout].
      by rewrite <-!app_assoc.
Qed.

End Move.

(** ** Services that differ only in look-up and batch-add *)

Section Agree.
Context {St : Type} (A B : Service St).
Hypothesis list_agree : mediaItems_list B = mediaItems_list A.
Hypothesis search_agree : mediaItems_search B = mediaItems_search A.
Hypothesis albums_agree : albums_list B = albums_list A.

Lemma get_all_photos_loop_agree fuel : ∀ acc tok w,
  get_all_photos_loop B fuel acc tok w = get_all_photos_loop A fuel acc tok w.
Proof.
  induction fuel as [|fuel IH]; intros acc tok w; [done|].
  cbn [get_all_photos_loop]. unfold mediaItems_list_execute.
  rewrite list_agree. unfold_M.
  destruct (execute _ _ w) as [[results|e|] w1]; [|done..].
  destruct (negb _); [done|apply IH].
Qed.

Lemma album_search_loop_agree fuel album_id : ∀ acc tok w,
  album_search_loop B fuel album_id acc tok w
  = album_search_loop A fuel album_id acc tok w.
Proof.
  induction fuel as [|fuel IH]; intros acc tok w; [done|].
  cbn [album_search_loop]. unfold mediaItems_search_execute.
  rewrite search_agree. unfold_M.
  destruct (execute _ _ w) as [[results|e|] w1]; [|done..].
  destruct (negb _); [done|apply IH].
Qed.

Lemma albums_for_agree fuel albums : ∀ acc w,
  albums_for B fuel albums acc w = albums_for A fuel albums acc w.
Proof.
  induction albums as [|a rest IH]; intros acc w; [done|].
  cbn [albums_for]. unfold_M.
  destruct (getitem a "id" w) as [[i|e|] w1]; [|done..].
  rewrite album_search_loop_agree.
  destruct (album_search_loop A fuel i acc None w1) as [[acc'|e|] w2]; [|done..].
  apply IH.
Qed.

Lemma get_album_item_ids_loop_agree fuel : ∀ acc tok w,
  get_album_item_ids_loop B fuel acc tok w
  = get_album_item_ids_loop A fuel acc tok w.
Proof.
  induction fuel as [|fuel IH]; intros acc tok w; [done|].
  cbn [get_album_item_ids_loop]. unfold albums_list_execute.
  rewrite albums_agree. unfold_M.
  destruct (execute _ _ w) as [[response|e|] w1]; [|done..].
  rewrite albums_for_agree.
  destruct (albums_for A fuel _ acc w1) as [[acc'|e|] w2]; [|done..].
  destruct (execute _ _ w2) as [[response'|e|] w3]; [|done..].
  destruct (negb _); [done|apply IH].
Qed.

Lemma get_items_no_album_agree fuel batch_size w :
  get_items_no_album B fuel batch_size w = get_items_no_album A fuel batch_size w.
Proof.
  unfold get_items_no_album, get_all_photos, get_album_item_ids. unfold_M.
  rewrite get_all_photos_loop_agree.
  destruct (get_all_photos_loop A fuel [] None w) as [[all|e|] w1]; [|done..].
  by rewrite get_album_item_ids_loop_agree.
Qed.
End Agree.

Section Inversion.
Context {St : Type} (service : Service St).

Lemma get_items_no_album_inv fuel batch_size w candidates w2 :
  get_items_no_album service fuel batch_size w = (Ret candidates, w2) →
  ∃ all_photos w1 ids,
    get_all_photos service fuel w = (Ret all_photos, w1) ∧
    get_album_item_ids service fuel w1 = (Ret ids, w2) ∧
    Forall (carries "id") all_photos ∧
    candidates = slice_to (filter (orphan ids) all_photos) batch_size.
Proof.
  unfold get_items_no_album. intros H.
  apply bind_Ret_inv in H as (all_photos & w1 & H1 & H).
  apply bind_Ret_inv in H as (ids & w2' & H2 & H).
  apply bind_Ret_inv in H as (orphans & w3 & H3 & H).
  exists all_photos, w1, ids.
  destruct (decide (Forall (carries "id") all_photos)) as [Hid|Hno].
  - rewrite (filterM_not_in_album ids _ w2' Hid) in H3.
    unfold_M. by simplify_eq.
  - by rewrite (filterM_not_in_album_KeyError ids _ w2' Hno) in H3.
Qed.
End Inversion.

(** ** The collectors over a library at rest *)

Section AtRest.
Context (L : library) (F : faults).
Local Abbreviation service := (library_service L F).

Lemma length_token_of k : String.length (token_of k) = k.
Proof. induction k; cbn; congruence. Qed.

Lemma page_index_token_of k : page_index (Some (token_of k)) = k.
Proof. apply length_token_of. Qed.

Lemma truthy_next_token {A} (pages : list (list A)) k :
  truthy (next_token pages k) = bool_decide (S k < length pages)%nat.
Proof.
  unfold next_token. destruct (decide _).
  - by rewrite bool_decide_eq_true_2.
  - by rewrite bool_decide_eq_false_2.
Qed.

(** The pages from [k] on, split at the served page. *)
Lemma drop_served {A} (pages : list (list A)) k :
  mjoin (drop k pages)
  = default [] (pages !! k) ++ mjoin (drop (S k) pages).
Proof.
  destruct (pages !! k) as [page|] eqn:Hk.
  - by rewrite (drop_S _ _ _ Hk).
  - apply lookup_ge_None in Hk. by rewrite !drop_ge by lia.
Qed.

Lemma drop_last_page {A} (pages : list (list A)) k :
  ¬ (S k < length pages)%nat →
  mjoin (drop k pages) = default [] (pages !! k).
Proof.
  intros Hk. rewrite drop_served, (drop_ge _ (S k)) by lia.
  cbn. by rewrite app_nil_r.
Qed.

(** One album's member search, from page [k] on. *)
Lemma album_search_loop_at_rest album_id fuel : ∀ k acc tok (w : world unit),
  let pages := default [] (album_members L !! album_id) in
  page_index tok = k →
  (length pages - k < fuel)%nat →
  ∃ w', album_search_loop service fuel album_id acc tok w
        = (Ret (acc ∪ list_to_set (page_ids (mjoin (drop k pages)))), w').
Proof.
  induction fuel as [|fuel IH]; intros k acc tok w pages Hk Hfuel; [lia|].
  cbn [album_search_loop]. unfold mediaItems_search_execute, execute.
  unfold_M. cbn. fold pages. rewrite Hk, truthy_next_token.
  destruct (decide (S k < length pages)%nat) as [Hlt|Hge].
  - rewrite bool_decide_eq_true_2 by done. cbn [negb].
    unfold next_token. rewrite decide_True by done.
    edestruct (IH (S k)) as [w' ->]; [apply page_index_token_of|fold pages; lia|].
    exists w'. fold pages. f_equal. f_equal.
    rewrite (drop_served pages k). unfold page_ids.
    rewrite omap_app, list_to_set_app_L. by rewrite (assoc_L (∪)).
  - rewrite bool_decide_eq_false_2 by done. cbn [negb].
    eexists. by rewrite drop_last_page.
Qed.

Lemma album_search_at_rest (a : item) album_id fuel acc (w : world unit) :
  a !! "id" = Some album_id →
  (length (pages_of L a) < fuel)%nat →
  ∃ w', album_search_loop service fuel album_id acc None w
        = (Ret (acc ∪ member_ids_of L [a]), w').
Proof.
  intros Hid Hfuel. unfold pages_of in Hfuel. rewrite Hid in Hfuel.
  destruct (album_search_loop_at_rest album_id fuel 0 acc None w)
    as [w' ->]; [done|lia|].
  exists w'. unfold member_ids_of, members_of, album_items, pages_of.
  cbn. by rewrite Hid, app_nil_r.
Qed.

Lemma member_ids_of_cons a albums :
  member_ids_of L (a :: albums) = member_ids_of L [a] ∪ member_ids_of L albums.
Proof.
  unfold member_ids_of, members_of, page_ids. cbn.
  by rewrite app_nil_r, omap_app, list_to_set_app_L.
Qed.

Lemma member_ids_of_app albums1 albums2 :
  member_ids_of L (albums1 ++ albums2)
  = member_ids_of L albums1 ∪ member_ids_of L albums2.
Proof.
  unfold member_ids_of, members_of, page_ids.
  by rewrite bind_app, omap_app, list_to_set_app_L.
Qed.

(** The albums of one listing page. *)
Lemma albums_for_at_rest fuel albums : ∀ acc (w : world unit),
  Forall (carries "id") albums →
  (max_list_with (λ a, length (pages_of L a)) albums < fuel)%nat →
  ∃ w', albums_for service fuel albums acc w
        = (Ret (acc ∪ member_ids_of L albums), w').
Proof.
  induction albums as [|a rest IH]; intros acc w Hid Hfuel.
  - exists w. cbn. unfold member_ids_of. cbn. by rewrite (right_id_L ∅ (∪)).
  - apply Forall_cons in Hid as [[i Hi] Hrest]. cbn in Hfuel.
    cbn [albums_for].
    rewrite (bind_Ret _ _ _ _ _ (getitem_Some a "id" i w Hi)).
    destruct (album_search_at_rest a i fuel acc w Hi) as [w1 H1]; [lia|].
    rewrite (bind_Ret _ _ _ _ _ H1).
    destruct (IH (acc ∪ member_ids_of L [a]) w1 Hrest) as [w2 ->]; [lia|].
    exists w2. by rewrite (member_ids_of_cons a rest), (assoc_L (∪)).
Qed.

Lemma album_search_loop_at_rest_inv album_id fuel :
  ∀ k acc tok (w : world unit) r w',
  let pages := default [] (album_members L !! album_id) in
  page_index tok = k →
  album_search_loop service fuel album_id acc tok w = (Ret r, w') →
  r = acc ∪ list_to_set (page_ids (mjoin (drop k pages))).
Proof.
  induction fuel as [|fuel IH]; intros k acc tok w r w' pages Hk; [done|].
  cbn [album_search_loop]. unfold mediaItems_search_execute, execute.
  unfold_M. cbn. fold pages. rewrite Hk, truthy_next_token.
  destruct (decide (S k < length pages)%nat) as [Hlt|Hge].
  - rewrite bool_decide_eq_true_2 by done. cbn [negb].
    unfold next_token. rewrite decide_True by done. intros H.
    apply (IH (S k)) in H; [|apply page_index_token_of]. subst r. fold pages.
    rewrite (drop_served pages k). unfold page_ids.
    rewrite omap_app, list_to_set_app_L. by rewrite (assoc_L (∪)).
  - rewrite bool_decide_eq_false_2 by done. cbn [negb].
    intros [= <- _]. by rewrite drop_last_page.
Qed.

Lemma albums_for_at_rest_inv fuel albums : ∀ acc (w : world unit) r w',
  albums_for service fuel albums acc w = (Ret r, w') →
  r = acc ∪ member_ids_of L albums.
Proof.
  induction albums as [|a rest IH]; intros acc w r w'.
  - cbn. intros [= <- _]. unfold member_ids_of. cbn.
    by rewrite (right_id_L ∅ (∪)).
  - cbn [albums_for]. intros H.
    apply bind_Ret_inv in H as (i & w1 & Hi & H).
    apply bind_Ret_inv in H as (acc1 & w2 & H1 & H).
    unfold getitem in Hi. destruct (a !! "id") as [i'|] eqn:Hid; [|done].
    unfold_M. simplify_eq.
    apply (album_search_loop_at_rest_inv _ _ 0) in H1; [|done].
    apply IH in H. subst r acc1.
    rewrite (member_ids_of_cons a rest), (assoc_L (∪)). f_equal. f_equal.
    unfold member_ids_of, members_of, album_items, pages_of.
    cbn. by rewrite Hid, app_nil_r.
Qed.

Lemma max_pages_elem_of (a : item) (albums : list item) :
  a ∈ albums →
  (length (pages_of L a)
   ≤ max_list_with (λ a, length (pages_of L a)) albums)%nat.
Proof. induction 1; cbn; lia. Qed.

Lemma max_pages_subseteq (albums albums' : list item) :
  albums ⊆ albums' →
  (max_list_with (λ a, length (pages_of L a)) albums
   ≤ max_list_with (λ a, length (pages_of L a)) albums')%nat.
Proof.
  induction albums as [|a rest IH]; intros Hsub; cbn; [lia|].
  assert (a ∈ albums') as Ha%max_pages_elem_of by (apply Hsub; left).
  assert (rest ⊆ albums') as Hrest%IH by (intros x Hx; apply Hsub; by right).
  lia.
Qed.

Lemma served_page_subseteq (k : nat) :
  default [] (album_pages L !! k) ⊆ listed_albums L.
Proof.
  destruct (album_pages L !! k) as [page|] eqn:Hk; cbn; [|by intros x Hx%elem_of_nil].
  intros x Hx. apply list_elem_of_join. exists page. split; [done|].
  by eapply list_elem_of_lookup_2.
Qed.

Lemma albums_list_execute_at_rest pageSize excl tok (w : world unit) :
  albums_list_execute service pageSize excl tok w
  = (Ret (serve_albums (album_pages L) tok),
     World (svc w) (trace w ++ [AlbumsList pageSize excl tok]) (stdout w)).
Proof. by destruct w as [[] ? ?]. Qed.

(** The outer loop from listing page [k] on. *)
Lemma get_album_item_ids_loop_at_rest fuel : ∀ k acc tok (w : world unit),
  page_index tok = k →
  Forall (carries "id") (listed_albums L) →
  (length (album_pages L) - k
   + max_list_with (λ a, length (pages_of L a)) (listed_albums L) + 1
   < fuel)%nat →
  ∃ w', get_album_item_ids_loop service fuel acc tok w
        = (Ret (acc ∪ member_ids_of L (mjoin (drop k (album_pages L)))), w').
Proof.
  induction fuel as [|fuel IH]; intros k acc tok w Hk Hid Hfuel; [lia|].
  cbn [get_album_item_ids_loop].
  rewrite (bind_Ret _ _ _ _ _ (albums_list_execute_at_rest 50 false tok w)).
  cbn [serve_albums albums]. rewrite Hk.
  set (page := default [] (album_pages L !! k)).
  pose proof (served_page_subseteq k) as Hsub. fold page in Hsub.
  edestruct (albums_for_at_rest fuel page acc) as [w1 H1].
  { apply Forall_forall. intros a Ha.
    by eapply (proj1 (Forall_forall _ _) Hid), Hsub. }
  { pose proof (max_pages_subseteq _ _ Hsub). lia. }
  rewrite (bind_Ret _ _ _ _ _ H1).
  rewrite (bind_Ret _ _ _ _ _ (albums_list_execute_at_rest 50 false tok w1)).
  cbn [serve_albums albums_nextPageToken]. rewrite Hk, truthy_next_token.
  destruct (decide (S k < length (album_pages L))%nat) as [Hlt|Hge].
  - rewrite bool_decide_eq_true_2 by done. cbn [negb].
    unfold next_token. rewrite decide_True by done.
    edestruct (IH (S k)) as [w' ->]; [apply page_index_token_of|done|lia|].
    exists w'. rewrite (drop_served (album_pages L) k). fold page.
    by rewrite member_ids_of_app, (assoc_L (∪)).
  - rewrite bool_decide_eq_false_2 by done. cbn [negb].
    eexists. rewrite drop_last_page by done. done.
Qed.

Lemma get_album_item_ids_loop_at_rest_inv fuel :
  ∀ k acc tok (w : world unit) r w',
  page_index tok = k →
  get_album_item_ids_loop service fuel acc tok w = (Ret r, w') →
  r = acc ∪ member_ids_of L (mjoin (drop k (album_pages L))).
Proof.
  induction fuel as [|fuel IH]; intros k acc tok w r w' Hk; [done|].
  cbn [get_album_item_ids_loop]. intros H.
  apply bind_Ret_inv in H as (response & w1 & Hresp & H).
  apply bind_Ret_inv in H as (acc1 & w2 & Hfor & H).
  apply bind_Ret_inv in H as (response' & w3 & Hresp' & H).
  rewrite albums_list_execute_at_rest in Hresp, Hresp'.
  unfold serve_albums in Hresp, Hresp'. rewrite Hk in Hresp, Hresp'.
  injection Hresp as <- <-. injection Hresp' as <- <-.
  cbn [albums albums_nextPageToken] in *.
  apply albums_for_at_rest_inv in Hfor. subst acc1.
  rewrite truthy_next_token in H.
  destruct (decide (S k < length (album_pages L))%nat) as [Hlt|Hge].
  - rewrite bool_decide_eq_true_2 in H by done. cbn [negb] in H.
    unfold next_token in H. rewrite decide_True in H by done.
    apply (IH (S k)) in H; [|apply page_index_token_of]. subst r.
    rewrite (drop_served (album_pages L) k).
    by rewrite member_ids_of_app, (assoc_L (∪)).
  - rewrite bool_decide_eq_false_2 in H by done. cbn [negb] in H.
    unfold_M. injection H as <- _. by rewrite drop_last_page.
Qed.

(** With enough fuel the collector returns the member ids of the library. *)
Lemma get_album_item_ids_at_rest fuel (w : world unit) :
  Forall (carries "id") (listed_albums L) →
  (enough_fuel L ≤ fuel)%nat →
  ∃ w', get_album_item_ids service fuel w = (Ret (member_ids L), w').
Proof.
  intros Hid Hfuel. unfold enough_fuel in Hfuel.
  destruct (get_album_item_ids_loop_at_rest fuel 0 ∅ None w)
    as [w' H]; [done|done|lia|].
  exists w'. unfold get_album_item_ids. rewrite H.
  by rewrite (left_id_L ∅ (∪)).
Qed.

Lemma mediaItems_list_execute_at_rest pageSize tok (w : world unit) :
  mediaItems_list_execute service pageSize tok w
  = (Ret (serve_items (photo_pages L) tok),
     World (svc w) (trace w ++ [MediaItemsList pageSize tok]) (stdout w)).
Proof. by destruct w as [[] ? ?]. Qed.

(** The photo enumeration from listing page [k] on. *)
Lemma get_all_photos_loop_at_rest fuel : ∀ k acc tok (w : world unit),
  page_index tok = k →
  (length (photo_pages L) - k < fuel)%nat →
  ∃ w', get_all_photos_loop service fuel acc tok w
        = (Ret (acc ++ filter (λ it, is_photo it = true)
                         (mjoin (drop k (photo_pages L)))), w').
Proof.
  induction fuel as [|fuel IH]; intros k acc tok w Hk Hfuel; [lia|].
  cbn [get_all_photos_loop].
  rewrite (bind_Ret _ _ _ _ _ (mediaItems_list_execute_at_rest 100 tok w)).
  cbn [serve_items mediaItems items_nextPageToken].
  rewrite Hk, truthy_next_token.
  destruct (decide (S k < length (photo_pages L))%nat) as [Hlt|Hge].
  - rewrite bool_decide_eq_true_2 by done. cbn [negb].
    unfold next_token. rewrite decide_True by done.
    edestruct (IH (S k)) as [w' ->]; [apply page_index_token_of|lia|].
    exists w'. rewrite (drop_served (photo_pages L) k), filter_app.
    by rewrite <-app_assoc.
  - rewrite bool_decide_eq_false_2 by done. cbn [negb].
    eexists. by rewrite drop_last_page.
Qed.

Lemma get_all_photos_at_rest fuel (w : world unit) :
  (length (photo_pages L) < fuel)%nat →
  ∃ w', get_all_photos service fuel w = (Ret (enumerated L), w').
Proof.
  intros Hfuel.
  destruct (get_all_photos_loop_at_rest fuel 0 [] None w) as [w' H];
    [done|lia|].
  by exists w'.
Qed.

(** Whatever the collector returns is the member ids of the library. *)
Lemma get_album_item_ids_at_rest_inv fuel (w : world unit) ids w' :
  get_album_item_ids service fuel w = (Ret ids, w') → ids = member_ids L.
Proof.
  intros H. apply (get_album_item_ids_loop_at_rest_inv _ 0) in H; [|done].
  by rewrite (left_id_L ∅ (∪)) in H.
Qed.

(** With enough fuel the orphan resolver returns the first orphans of the
    library. *)
Lemma get_items_no_album_at_rest fuel batch_size (w : world unit) :
  Forall (carries "id") (listed_albums L) →
  Forall (carries "id") (enumerated L) →
  (enough_fuel L ≤ fuel)%nat →
  ∃ w', get_items_no_album service fuel batch_size w
        = (Ret (slice_to (orphans_of L) batch_size), w').
Proof.
  intros Halbums Hphotos Hfuel.
  destruct (get_all_photos_at_rest fuel w) as [w1 H1].
  { unfold enough_fuel in Hfuel. lia. }
  destruct (get_album_item_ids_at_rest fuel w1 Halbums Hfuel) as [w2 H2].
  exists w2. by apply (get_items_no_album_run _ _ _ _ _ _ _ _ H1 H2).
Qed.

End AtRest.

(** ** The album membership collector *)

Section MemberIds.
Context (L : library).

Lemma size_list_to_set_le (l : list string) :
  (size (list_to_set l : gset string) ≤ length l)%nat.
Proof.
  induction l as [|x l IH]; cbn.
  - by rewrite size_empty.
  - destruct (decide (x ∈ (list_to_set l : gset string))) as [Hin|Hout].
    + rewrite subseteq_union_1_L by set_solver. lia.
    + rewrite size_union by set_solver. rewrite size_singleton. lia.
Qed.

Lemma length_page_ids (items : list item) :
  (length (page_ids items) ≤ length items)%nat.
Proof.
  unfold page_ids. induction items as [|it items IH]; cbn; [lia|].
  destruct (it !! "id"); cbn; lia.
Qed.

Lemma length_members_of (albums : list item) :
  length (members_of L albums) = sum_list_with (member_count L) albums.
Proof.
  unfold members_of. induction albums as [|a rest IH]; cbn; [done|].
  rewrite length_app, IH. done.
Qed.

Lemma size_member_ids_of (albums : list item) :
  (size (member_ids_of L albums) ≤ sum_list_with (member_count L) albums)%nat.
Proof.
  unfold member_ids_of. rewrite <-length_members_of.
  etrans; [apply size_list_to_set_le|apply length_page_ids].
Qed.

Lemma elem_of_member_ids_of (albums : list item) i :
  i ∈ member_ids_of L albums ↔
  ∃ a it, a ∈ albums ∧ it ∈ album_items L a ∧ it !! "id" = Some i.
Proof.
  unfold member_ids_of, members_of, page_ids.
  rewrite elem_of_list_to_set, list_elem_of_omap. split.
  - intros (it & (a & Hit & Ha)%list_elem_of_bind & Hi). by exists a, it.
  - intros (a & it & Ha & Hit & Hi). exists it. split; [|done].
    apply list_elem_of_bind. by exists a.
Qed.
End MemberIds.

Lemma member_ids_of_Permutation (L L' : library) (albums albums' : list item) :
  album_members L' = album_members L →
  albums' ≡ₚ albums →
  member_ids_of L' albums' = member_ids_of L albums.
Proof.
  intros Hm Hperm. apply set_eq. intros i.
  rewrite !elem_of_member_ids_of. unfold album_items, pages_of. rewrite Hm.
  split; intros (a & it & Ha & H); exists a, it; split; try done.
  - by rewrite <-Hperm.
  - by rewrite Hperm.
Qed.

(** ** Finding an album by name *)

Section FindAlbum.
Context (L : library) (F : faults).
Local Abbreviation service := (library_service L F).

Lemma find_in_page_scan (albums : list item) album_name (w : world unit) :
  find_in_page albums album_name w = (scan_titles albums album_name, w).
Proof.
  induction albums as [|a rest IH]; [done|].
  cbn [find_in_page scan_titles]. unfold getitem.
  destruct (a !! "title") as [t|]; [|done].
  unfold_M. by destruct (decide (t = album_name)).
Qed.

Lemma scan_titles_app (l1 l2 : list item) album_name :
  scan_titles (l1 ++ l2) album_name
  = match scan_titles l1 album_name with
    | Ret None => scan_titles l2 album_name
    | o => o
    end.
Proof.
  induction l1 as [|a l1 IH]; [done|]. cbn.
  destruct (a !! "title") as [t|]; [|done].
  by destruct (decide (t = album_name)).
Qed.

Lemma scan_titles_OutOfFuel (l : list item) album_name :
  scan_titles l album_name ≠ OutOfFuel.
Proof.
  induction l as [|a l IH]; [done|]. cbn.
  destruct (a !! "title") as [t|]; [|done].
  by destruct (decide (t = album_name)).
Qed.

Lemma scan_titles_other (l : list item) album_name :
  Forall (titled_other album_name) l → scan_titles l album_name = Ret None.
Proof.
  induction 1 as [|a l (t & Ht & Hne) _ IH]; [done|]. cbn.
  by rewrite Ht, decide_False.
Qed.

Lemma scan_titles_first (pre post : list item) a album_name :
  Forall (titled_other album_name) pre →
  a !! "title" = Some album_name →
  scan_titles (pre ++ a :: post) album_name = Ret (Some a).
Proof.
  intros Hpre Ha. rewrite scan_titles_app, (scan_titles_other _ _ Hpre).
  cbn. by rewrite Ha, decide_True.
Qed.

Lemma scan_titles_untitled (pre post : list item) a album_name :
  Forall (titled_other album_name) pre →
  a !! "title" = None →
  scan_titles (pre ++ a :: post) album_name = Raise (KeyError "title").
Proof.
  intros Hpre Ha. rewrite scan_titles_app, (scan_titles_other _ _ Hpre).
  cbn. by rewrite Ha.
Qed.

(** The listing loop from page [k] on scans the albums still to come. *)
Lemma find_album_loop_at_rest album_name fuel : ∀ k tok (w : world unit),
  page_index tok = k →
  (length (album_pages L) - k < fuel)%nat →
  ∃ w', find_album_loop service fuel album_name tok w
        = (scan_titles (mjoin (drop k (album_pages L))) album_name, w').
Proof.
  induction fuel as [|fuel IH]; intros k tok w Hk Hfuel; [lia|].
  cbn [find_album_loop].
  rewrite (bind_Ret _ _ _ _ _ (albums_list_execute_at_rest L F 50 false tok w)).
  cbn [serve_albums albums albums_nextPageToken]. rewrite Hk.
  set (page := default [] (album_pages L !! k)).
  set (w1 := World _ _ _).
  pose proof (find_in_page_scan page album_name w1) as Hscan.
  rewrite (drop_served (album_pages L) k), scan_titles_app. fold page.
  destruct (scan_titles page album_name) as [[a|]|e|] eqn:Hpage.
  - rewrite (bind_Ret _ _ _ _ _ Hscan). by exists w1.
  - rewrite (bind_Ret _ _ _ _ _ Hscan). rewrite truthy_next_token.
    destruct (decide (S k < length (album_pages L))%nat) as [Hlt|Hge].
    + rewrite bool_decide_eq_true_2 by done. cbn [negb].
      unfold next_token. rewrite decide_True by done.
      apply IH; [apply page_index_token_of|lia].
    + rewrite bool_decide_eq_false_2 by done. cbn [negb].
      exists w1. by rewrite drop_ge by lia.
  - rewrite (bind_Raise _ _ _ _ _ Hscan). by exists w1.
  - by apply scan_titles_OutOfFuel in Hpage.
Qed.

Lemma find_album_at_rest album_name fuel (w : world unit) :
  (length (album_pages L) < fuel)%nat →
  ∃ w', find_album service fuel album_name w
        = (scan_titles (listed_albums L) album_name, w').
Proof.
  intros Hfuel.
  destruct (find_album_loop_at_rest album_name fuel 0 None w)
    as [w' H]; [done|lia|].
  by exists w'.
Qed.
End FindAlbum.

(** ** The double fetch of the album listing *)

Section Requests.
Context {St : Type} (service : Service St).

Lemma execute_run {R} req (ep : St → (exn + R) * St) (w : world St) :
  execute req ep w
  = (match fst (ep (svc w)) with inl e => Raise e | inr v => Ret v end,
     World (snd (ep (svc w))) (trace w ++ [req]) (stdout w)).
Proof. unfold execute. by destruct (ep (svc w)) as [[e|v] s']. Qed.

Lemma listing_tokens_app t1 t2 :
  listing_tokens (t1 ++ t2) = listing_tokens t1 ++ listing_tokens t2.
Proof. apply omap_app. Qed.

(** The member search sends no listing request. *)
Lemma album_search_loop_listing fuel album_id : ∀ acc tok (w : world St),
  listing_tokens (trace (snd (album_search_loop service fuel album_id acc tok w)))
  = listing_tokens (trace w).
Proof.
  induction fuel as [|fuel IH]; intros acc tok w; [done|].
  cbn [album_search_loop]. unfold mediaItems_search_execute.
  unfold_M. rewrite execute_run.
  destruct (fst (mediaItems_search service album_id 50 tok (svc w)))
    as [e|page]; cbn.
  - by rewrite listing_tokens_app, app_nil_r.
  - destruct (negb _); cbn.
    + by rewrite listing_tokens_app, app_nil_r.
    + rewrite IH. cbn. by rewrite listing_tokens_app, app_nil_r.
Qed.

Lemma albums_for_listing fuel albums : ∀ acc (w : world St),
  listing_tokens (trace (snd (albums_for service fuel albums acc w)))
  = listing_tokens (trace w).
Proof.
  induction albums as [|a rest IH]; intros acc w; [done|].
  cbn [albums_for]. unfold getitem. unfold_M.
  destruct (a !! "id") as [i|]; [|done].
  pose proof (album_search_loop_listing fuel i acc None w) as Hs.
  destruct (album_search_loop service fuel i acc None w) as [[acc'|e|] w1];
    cbn in Hs; [|done..].
  by rewrite IH.
Qed.

(** A run of the collector that returns has sent its listing requests in
    pairs of the same token. *)
Lemma get_album_item_ids_loop_pairs fuel : ∀ acc tok (w : world St) r w',
  get_album_item_ids_loop service fuel acc tok w = (Ret r, w') →
  ∃ toks, listing_tokens (trace w')
          = listing_tokens (trace w) ++ doubled (tok :: toks).
Proof.
  induction fuel as [|fuel IH]; intros acc tok w r w'; [done|].
  cbn [get_album_item_ids_loop]. intros H.
  apply bind_Ret_inv in H as (response & w1 & Hresp & H).
  apply bind_Ret_inv in H as (acc1 & w2 & Hfor & H).
  apply bind_Ret_inv in H as (response' & w3 & Hresp' & H).
  unfold albums_list_execute in Hresp, Hresp'.
  rewrite execute_run in Hresp, Hresp'.
  apply (f_equal (λ x, listing_tokens (trace (snd x)))) in Hresp, Hresp'.
  cbn in Hresp, Hresp'.
  pose proof (albums_for_listing fuel (default [] (albums response)) acc w1)
    as Hfor'. rewrite Hfor in Hfor'. cbn in Hfor'.
  rewrite listing_tokens_app in Hresp, Hresp'. cbn in Hresp, Hresp'.
  assert (H3 : listing_tokens (trace w3)
               = listing_tokens (trace w) ++ [tok; tok]).
  { rewrite <-Hresp', Hfor', <-Hresp. by rewrite <-app_assoc. }
  destruct (negb (truthy (albums_nextPageToken response'))).
  - unfold_M. injection H as _ <-. exists []. by rewrite H3.
  - apply IH in H as [toks Htoks].
    exists (albums_nextPageToken response' :: toks).
    rewrite Htoks, H3. by rewrite <-app_assoc.
Qed.

(** What a returning member search has sent. *)
Lemma album_search_loop_searched fuel album_id : ∀ acc tok (w : world St) r w',
  album_search_loop service fuel album_id acc tok w = (Ret r, w') →
  ∃ t, trace w' = trace w ++ t ∧
       searched service album_id tok (svc w) t (svc w').
Proof.
  induction fuel as [|fuel IH]; intros acc tok w r w'; [done|].
  cbn [album_search_loop]. intros H.
  apply bind_Ret_inv in H as (page & w1 & Hpage & H).
  unfold mediaItems_search_execute in Hpage. rewrite execute_run in Hpage.
  destruct (mediaItems_search service album_id 50 tok (svc w))
    as [[e|page'] s1] eqn:Hsearch; cbn in Hpage; [done|].
  injection Hpage as -> <-.
  destruct (truthy (items_nextPageToken page)) eqn:Htok; cbn in H.
  - apply IH in H as (t & Htr & Ht). cbn in Htr, Ht.
    exists (MediaItemsSearch album_id 50 tok :: t). split.
    + by rewrite Htr, <-app_assoc.
    + by eapply searched_more.
  - unfold_M. injection H as _ <-. cbn.
    exists [MediaItemsSearch album_id 50 tok]. split; [done|].
    by eapply searched_last.
Qed.

(** What the loop over the albums of a page has sent when it returns. *)
Lemma albums_for_processed fuel albums : ∀ acc (w : world St) r w',
  albums_for service fuel albums acc w = (Ret r, w') →
  ∃ t, trace w' = trace w ++ t ∧ processed service albums (svc w) t (svc w').
Proof.
  induction albums as [|a rest IH]; intros acc w r w'.
  - cbn. unfold_M. intros [= _ <-]. exists []. rewrite app_nil_r.
    split; [done|]. constructor.
  - cbn [albums_for]. intros H.
    apply bind_Ret_inv in H as (album_id & w0 & Hid & H).
    apply bind_Ret_inv in H as (acc1 & w1 & Hsearch & H).
    unfold getitem in Hid.
    destruct (a !! "id") as [i|] eqn:Hi; [|done].
    unfold_M. injection Hid as -> ->.
    apply album_search_loop_searched in Hsearch as (t1 & Htr1 & Ht1).
    apply IH in H as (t2 & Htr2 & Ht2).
    exists (t1 ++ t2). split.
    + by rewrite Htr2, Htr1, <-app_assoc.
    + by eapply processed_cons.
Qed.

(** What a returning run of the collector has sent: on every outer page
    the second listing request comes after the albums of the first answer
    have been processed. *)
Lemma get_album_item_ids_loop_collected fuel : ∀ acc tok (w : world St) r w',
  get_album_item_ids_loop service fuel acc tok w = (Ret r, w') →
  ∃ t, trace w' = trace w ++ t ∧ collected service tok (svc w) t (svc w').
Proof.
  induction fuel as [|fuel IH]; intros acc tok w r w'; [done|].
  cbn [get_album_item_ids_loop]. intros H.
  apply bind_Ret_inv in H as (response & w1 & Hresp & H).
  apply bind_Ret_inv in H as (acc1 & w2 & Hfor & H).
  apply bind_Ret_inv in H as (response' & w3 & Hresp' & H).
  unfold albums_list_execute in Hresp, Hresp'.
  rewrite execute_run in Hresp, Hresp'.
  destruct (albums_list service 50 false tok (svc w))
    as [[e|response0] s1] eqn:Hfirst; cbn in Hresp; [done|].
  injection Hresp as -> <-.
  destruct (albums_list service 50 false tok (svc w2))
    as [[e|response0] s3] eqn:Hsecond; cbn in Hresp'; [done|].
  injection Hresp' as -> <-.
  apply albums_for_processed in Hfor as (t & Htr & Ht). cbn in Htr, Ht.
  destruct (truthy (albums_nextPageToken response')) eqn:Htok; cbn in H.
  - apply IH in H as (rest & Htr' & Hrest). cbn in Htr', Hrest.
    exists (AlbumsList 50 false tok :: t ++ AlbumsList 50 false tok :: rest).
    split.
    + rewrite Htr', Htr. by rewrite <-!app_assoc.
    + by eapply collected_more.
  - unfold_M. injection H as _ <-. cbn.
    exists (AlbumsList 50 false tok :: t ++ [AlbumsList 50 false tok]).
    split.
    + rewrite Htr. by rewrite <-!app_assoc.
    + by eapply collected_last.
Qed.

Lemma agree_bind {A B} (m1 m2 : M St A) (f1 f2 : A → M St B) w1 w2 :
  agree (m1 w1) (m2 w2) →
  (∀ a w1' w2', svc w1' = svc w2' → agree (f1 a w1') (f2 a w2')) →
  agree ((m1 ≫= f1) w1) ((m2 ≫= f2) w2).
Proof.
  unfold agree. unfold_M.
  destruct (m1 w1) as [o1 w1'], (m2 w2) as [o2 w2']. cbn.
  intros [<- Hs] Hf. destruct o1; [by apply Hf|done..].
Qed.

Lemma agree_execute {R} req (ep : St → (exn + R) * St) w1 w2 :
  svc w1 = svc w2 → agree (execute req ep w1) (execute req ep w2).
Proof. intros Hs. rewrite !execute_run, Hs. by split. Qed.

Lemma agree_album_search_loop fuel album_id : ∀ acc tok w1 w2,
  svc w1 = svc w2 →
  agree (album_search_loop service fuel album_id acc tok w1)
        (album_search_loop service fuel album_id acc tok w2).
Proof.
  induction fuel as [|fuel IH]; intros acc tok w1 w2 Hs; [by split|].
  cbn [album_search_loop]. apply agree_bind.
  - by apply agree_execute.
  - intros page w1' w2' Hs'. destruct (negb _); [by split|by apply IH].
Qed.

Lemma agree_albums_for fuel albums : ∀ acc w1 w2,
  svc w1 = svc w2 →
  agree (albums_for service fuel albums acc w1)
        (albums_for service fuel albums acc w2).
Proof.
  induction albums as [|a rest IH]; intros acc w1 w2 Hs; [by split|].
  cbn [albums_for]. apply agree_bind.
  - unfold getitem. by destruct (a !! "id"); split.
  - intros i w1' w2' Hs'. apply agree_bind.
    + by apply agree_album_search_loop.
    + intros acc' w1'' w2'' Hs''. by apply IH.
Qed.

Hypothesis read_only : listing_read_only service.
Hypothesis keeps : search_keeps_listing service.

Lemma album_search_loop_answers fuel album_id : ∀ acc tok (w : world St),
  answers service
    (svc (snd (album_search_loop service fuel album_id acc tok w))) (svc w).
Proof.
  induction fuel as [|fuel IH]; intros acc tok w; [done|].
  cbn [album_search_loop]. unfold mediaItems_search_execute.
  unfold_M. rewrite execute_run.
  assert (Hstep : answers service
            (snd (mediaItems_search service album_id 50 tok (svc w))) (svc w)).
  { intros ps ex tok'. apply keeps. }
  destruct (fst (mediaItems_search service album_id 50 tok (svc w)))
    as [e|page]; cbn; [done|].
  destruct (negb _); cbn; [done|].
  intros ps ex tok'. rewrite IH. cbn. apply Hstep.
Qed.

Lemma albums_for_answers fuel albums : ∀ acc (w : world St),
  answers service (svc (snd (albums_for service fuel albums acc w))) (svc w).
Proof.
  induction albums as [|a rest IH]; intros acc w; [done|].
  cbn [albums_for]. unfold getitem. unfold_M.
  destruct (a !! "id") as [i|]; [|done].
  pose proof (album_search_loop_answers fuel i acc None w) as Hs.
  destruct (album_search_loop service fuel i acc None w) as [[acc'|e|] w1];
    cbn in Hs; [|done..].
  intros ps ex tok. by rewrite IH.
Qed.

(** Under identical responses the double fetch and the single fetch
    collect the same set. *)
Lemma double_fetch_single_fetch fuel : ∀ acc tok w1 w2,
  svc w1 = svc w2 →
  agree (get_album_item_ids_loop service fuel acc tok w1)
        (single_fetch_loop service fuel acc tok w2).
Proof.
  induction fuel as [|fuel IH]; intros acc tok w1 w2 Hs; [by split|].
  cbn [get_album_item_ids_loop single_fetch_loop].
  unfold albums_list_execute. unfold_M. rewrite !execute_run, <-Hs.
  pose proof (read_only 50 false tok (svc w1)) as Hro.
  destruct (fst (albums_list service 50 false tok (svc w1)))
    as [e|response] eqn:Hresp; cbn; [by split|].
  set (w1a := World _ (trace w1 ++ _) _).
  set (w2a := World _ (trace w2 ++ _) _).
  pose proof (agree_albums_for fuel (default [] (albums response)) acc
                w1a w2a eq_refl) as [Ho Hsvc].
  pose proof (albums_for_answers fuel (default [] (albums response)) acc w1a
                50 false tok) as Hans.
  destruct (albums_for service fuel _ acc w1a) as [o1 w1b].
  destruct (albums_for service fuel _ acc w2a) as [o2 w2b].
  cbn in Ho, Hsvc, Hans. subst o2.
  destruct o1 as [acc'|e|]; [|by split..].
  rewrite execute_run. rewrite Hans. cbn. rewrite Hro, Hresp.
  rewrite (read_only 50 false tok (svc w1b)).
  destruct (negb _); [by split|]. by apply IH.
Qed.

End Requests.

(** * The claims *)

(** ** The orphan resolver *)

(** C1: the code breaks the claim by the defect of C2.  An enumerated item
    without [id], which the filter of [get_all_photos] lets through, makes
    the orphan filter raise: no sequence of orphans is returned. *)
Lemma get_items_no_album_idless :
  fst (get_all_photos (library_service idless_library no_faults) 2 start)
  = Ret [photo "p1"; stray; photo "p2"] ∧
  fst (get_items_no_album (library_service idless_library no_faults) 2 10 start)
  = Raise (KeyError "id") ∧
  ∀ result,
    fst (get_items_no_album (library_service idless_library no_faults)
           2 10 start) ≠ Ret result.
Proof.
  assert (fst (get_items_no_album (library_service idless_library no_faults)
                 2 10 start) = Raise (KeyError "id")) as -> by reflexivity.
  split; [reflexivity|]. split; [done|]. intros result [=].
Qed.

(** C2: an image-typed item with a filename but without [id] passes the
    comprehension of [get_all_photos] and is returned as a photo; the orphan
    filter then fails on its missing key. *)
Theorem get_all_photos_keeps_idless :
  stray !! "id" = None ∧
  fst (get_all_photos (library_service stray_library no_faults) 1 start)
  = Ret [stray] ∧
  fst (get_items_no_album (library_service stray_library no_faults) 1 10 start)
  = Raise (KeyError "id").
Proof. repeat split; reflexivity. Qed.

(** C3: the slice of line 111 has no guard for a negative batch size.
    With batch size [-1] the scenario library, which has three orphans,
    yields two photos, where the claim, like the docstring (list up to
    [batch_size] photos), allows none. *)
Lemma get_items_no_album_negative_batch :
  fst (get_items_no_album (library_service five_photos no_faults) 5 (-1) start)
  = Ret [photo "p2"; photo "p4"] ∧
  fst (get_items_no_album (library_service five_photos no_faults) 5 (-1) start)
  ≠ Ret [].
Proof.
  assert (fst (get_items_no_album (library_service five_photos no_faults)
                 5 (-1) start) = Ret [photo "p2"; photo "p4"]) as -> by reflexivity.
  split; [done|]. intros [=].
Qed.

(** ** The album membership collector *)

(** C4: over a library at rest, whatever [get_album_item_ids] returns is
    the set of ids carried by the member items of the listed albums; it does
    return, given enough fuel, when the listed albums carry their ids, member
    entries without [id] being skipped; the set is no larger than the sum of
    the albums' member counts, and it is the same for any other order of the
    same albums. *)
Theorem get_album_item_ids_member_ids (L : library) (F : faults) :
  (∀ fuel w ids w',
     get_album_item_ids (library_service L F) fuel w = (Ret ids, w') →
     ids = member_ids L) ∧
  (Forall (carries "id") (listed_albums L) →
   ∀ fuel w, (enough_fuel L ≤ fuel)%nat →
     ∃ w', get_album_item_ids (library_service L F) fuel w
           = (Ret (member_ids L), w')) ∧
  (size (member_ids L)
   ≤ sum_list_with (member_count L) (listed_albums L))%nat ∧
  (∀ i, i ∈ member_ids L ↔
        ∃ a it, a ∈ listed_albums L ∧ it ∈ album_items L a ∧
                it !! "id" = Some i) ∧
  (∀ L' : library,
     album_members L' = album_members L →
     listed_albums L' ≡ₚ listed_albums L →
     member_ids L' = member_ids L).
Proof.
  split; [|split; [|split; [|split]]].
  - intros fuel w ids w'. apply get_album_item_ids_at_rest_inv.
  - intros Hid fuel w Hfuel. by apply get_album_item_ids_at_rest.
  - apply size_member_ids_of.
  - apply elem_of_member_ids_of.
  - intros L'. apply member_ids_of_Permutation.
Qed.

Lemma get_album_item_ids_member_ids_witness :
  fst (get_album_item_ids (library_service two_albums no_faults) 6 start)
  = Ret {[ "p1"; "p3" ]} ∧
  member_ids two_albums_swapped = member_ids two_albums.
Proof.
  destruct (get_album_item_ids_member_ids two_albums no_faults)
    as (Hinv & Hrun & _ & _ & Hperm).
  split.
  - destruct (Hrun (ltac:(repeat constructor; by eexists)) 6%nat start
                (ltac:(vm_compute; lia))) as [w' Hw'].
    rewrite Hw'. reflexivity.
  - apply Hperm; [reflexivity|]. apply Permutation_swap.
Defined.

(** ** The album mutator *)

(** C5: once its candidates are computed, the move operation returns them
    whatever the service answers afterwards.  Every candidate is looked up,
    in order, whether or not earlier look-ups raised or found nothing;
    exactly the ids whose look-up answered an item are then submitted, in
    order and one per batch-add, whether or not earlier batch-adds raised;
    and every look-up and every batch-add is reported on its own line, a
    failure with the error that was caught. *)
Theorem get_and_move_items_no_album_continues {St} (service : Service St)
    fuel album_id batch_size w candidates w1 :
  get_items_no_album service fuel batch_size w = (Ret candidates, w1) →
  let looked := lookups service (ids_of candidates) (svc w1) in
  let valid_ids := valid_of looked.1 in
  let added := additions service album_id valid_ids looked.2 in
  length (ids_of candidates) = length candidates ∧
  looked.1.*1 = ids_of candidates ∧
  added.1.*1 = valid_ids ∧
  get_and_move_items_no_album service fuel album_id batch_size w
  = (Ret candidates,
     World added.2
       (trace w1 ++ (MediaItemsGet <$> ids_of candidates)
                 ++ (add_request album_id <$> valid_ids))
       (stdout w1 ++ listing_line batch_size :: (photo_line <$> candidates)
                  ++ mutator_lines album_id candidates looked.1 added.1)).
Proof.
  intros Hrun looked valid_ids added.
  apply get_items_no_album_inv in Hrun
    as (all_photos & w0 & ids & H1 & H2 & Hid & ->).
  set (candidates := slice_to (filter (orphan ids) all_photos) batch_size) in *.
  assert (Hid' : Forall (carries "id") candidates).
  { eapply Forall_sublist; [|done].
    etrans; [apply slice_to_sublist|apply sublist_filter]. }
  split; [|split; [|split]].
  - clear -Hid'. unfold ids_of.
    induction Hid' as [|p l [i Hi] _ IH]; [done|]. cbn. rewrite Hi. cbn.
    by rewrite IH.
  - apply lookups_ids.
  - apply additions_ids.
  - rewrite (get_and_move_items_no_album_phases service fuel album_id batch_size
               _ _ _ _ _ H1 H2 Hid).
    fold candidates.
    rewrite (bind_Ret _ _ _ _ _
               (validate_and_move_run service album_id candidates _ Hid')).
    cbn [svc trace stdout]. unfold_M. fold looked valid_ids added.
    by rewrite <-!app_assoc.
Qed.

Lemma get_and_move_items_no_album_continues_witness :
  get_and_move_items_no_album (library_service five_photos flaky)
    5 "a1" 10 start
  = (Ret [photo "p2"; photo "p4"; photo "p5"],
     World ()
       (trace five_photos_w2
        ++ [MediaItemsGet "p2"; MediaItemsGet "p4"; MediaItemsGet "p5";
            AlbumsBatchAdd "a1" ["p4"]; AlbumsBatchAdd "a1" ["p5"]])
       [listing_line 10;
        photo_line (photo "p2"); photo_line (photo "p4"); photo_line (photo "p5");
        invalid_line "p2" (HttpError "404 Not Found");
        valid_line "p4" (photo "p4");
        valid_line "p5" (photo "p5");
        move_error_line "p4" (HttpError "400 Bad Request");
        moved_line "p5" "a1"]).
Proof.
  apply (get_and_move_items_no_album_continues
           (library_service five_photos flaky) 5 "a1" 10 start
           [photo "p2"; photo "p4"; photo "p5"] five_photos_w2).
  reflexivity.
Defined.

(** C6: whenever the candidate list has been computed, the move operation
    returns exactly that list; and a service that differs only in how it
    answers look-ups and batch-adds gets the same return value. *)
Theorem get_and_move_items_no_album_returns_candidates {St}
    (service : Service St) fuel album_id batch_size w candidates w1 :
  get_items_no_album service fuel batch_size w = (Ret candidates, w1) →
  (∃ w2, get_and_move_items_no_album service fuel album_id batch_size w
         = (Ret candidates, w2)) ∧
  (∀ other : Service St,
     mediaItems_list other = mediaItems_list service →
     mediaItems_search other = mediaItems_search service →
     albums_list other = albums_list service →
     fst (get_and_move_items_no_album other fuel album_id batch_size w)
     = Ret candidates).
Proof.
  intros Hrun. split.
  - pose proof (get_and_move_items_no_album_outcome service fuel album_id
                  batch_size w) as Hout.
    rewrite Hrun in Hout.
    destruct (get_and_move_items_no_album service fuel album_id batch_size w)
      as [r w2]. cbn in Hout. subst r. by exists w2.
  - intros other Hl Hs Ha.
    rewrite get_and_move_items_no_album_outcome.
    by rewrite (get_items_no_album_agree service other Hl Hs Ha), Hrun.
Qed.

Lemma get_and_move_items_no_album_returns_candidates_witness :
  fst (get_and_move_items_no_album (library_service five_photos flaky)
         5 "a1" 10 start)
  = Ret [photo "p2"; photo "p4"; photo "p5"].
Proof.
  refine (proj2 (get_and_move_items_no_album_returns_candidates
                   (library_service five_photos no_faults) 5 "a1" 10 start
                   [photo "p2"; photo "p4"; photo "p5"] five_photos_w2 _)
                (library_service five_photos flaky) _ _ _);
    reflexivity.
Defined.

(** ** Album look-ups *)

(** C7: [get_album_by_id] returns the album the direct look-up answered,
    or prints the error the look-up raised and returns [None]; it never
    raises. *)
Theorem get_album_by_id_lenient {St} (service : Service St) album_id
    (w : world St) :
  match albums_get service album_id (svc w) with
  | (inr album, s') =>
      get_album_by_id service album_id w
      = (Ret (Some album), World s' (trace w ++ [AlbumsGet album_id]) (stdout w))
  | (inl e, s') =>
      get_album_by_id service album_id w
      = (Ret None, after w (AlbumsGet album_id) s'
                     ["Error fetching album: " +:+ exn_str e])
  end ∧
  ∀ e, fst (get_album_by_id service album_id w) ≠ Raise e.
Proof.
  unfold get_album_by_id, try_except, albums_get_execute, execute. unfold_M.
  destruct (albums_get service album_id (svc w)) as [[e|album] s']; by split.
Qed.

(** C8, as stated, fails: an album without a title listed before the match
    makes the look-up raise instead of returning the match. *)
Lemma find_album_untitled_first :
  fst (find_album (library_service untitled_first no_faults) 2 "Vacation" start)
  = Raise (KeyError "title") ∧
  fst (find_album (library_service untitled_first no_faults) 2 "Vacation" start)
  ≠ Ret (Some (album "a1" "Vacation")).
Proof.
  assert (fst (find_album (library_service untitled_first no_faults)
                 2 "Vacation" start) = Raise (KeyError "title")) as ->
    by reflexivity.
  split; [done|]. intros [=].
Qed.

(** C8 (amended): over a library at rest and with fuel for every listing
    page, [find_album] returns the first listed album whose title is exactly
    the name when every album before it carries a title, returns [None] when
    every listed album carries another title, and raises [KeyError] when it
    meets an album without a title first. *)
Theorem find_album_first_match (L : library) (F : faults) album_name fuel
    (w : world unit) :
  (length (album_pages L) < fuel)%nat →
  (∀ pre a post,
     listed_albums L = pre ++ a :: post →
     Forall (titled_other album_name) pre →
     a !! "title" = Some album_name →
     ∃ w', find_album (library_service L F) fuel album_name w
           = (Ret (Some a), w')) ∧
  (Forall (titled_other album_name) (listed_albums L) →
   ∃ w', find_album (library_service L F) fuel album_name w = (Ret None, w')) ∧
  (∀ pre a post,
     listed_albums L = pre ++ a :: post →
     Forall (titled_other album_name) pre →
     a !! "title" = None →
     ∃ w', find_album (library_service L F) fuel album_name w
           = (Raise (KeyError "title"), w')).
Proof.
  intros Hfuel.
  destruct (find_album_at_rest L F album_name fuel w Hfuel) as [w' Hrun].
  split; [|split].
  - intros pre a post Hl Hpre Ha. exists w'.
    by rewrite Hrun, Hl, scan_titles_first.
  - intros Hall. exists w'. by rewrite Hrun, scan_titles_other.
  - intros pre a post Hl Hpre Ha. exists w'.
    by rewrite Hrun, Hl, scan_titles_untitled.
Qed.

Lemma find_album_first_match_witness :
  (∃ w', find_album (library_service two_albums no_faults) 3 "Vacation" start
         = (Ret (Some (album "a1" "Vacation")), w')) ∧
  (∃ w', find_album (library_service two_albums no_faults) 3 "vacation" start
         = (Ret None, w')).
Proof.
  destruct (find_album_first_match two_albums no_faults "Vacation" 3 start)
    as (Hfirst & _); [cbn; lia|].
  destruct (find_album_first_match two_albums no_faults "vacation" 3 start)
    as (_ & Hnone & _); [cbn; lia|].
  split.
  - apply (Hfirst [] (album "a1" "Vacation") [album "a2" "Vacation"]).
    + reflexivity.
    + constructor.
    + reflexivity.
  - apply Hnone. repeat constructor; by exists "Vacation".
Defined.

(** ** The move operation against the orphan resolver *)

(** C9: the move operation and the orphan resolver end the same way, with
    the same returned sequence, and the target album plays no part in it. *)
Theorem get_and_move_items_no_album_same_result {St} (service : Service St)
    fuel album_id album_id' batch_size w :
  fst (get_and_move_items_no_album service fuel album_id batch_size w)
  = fst (get_items_no_album service fuel batch_size w) ∧
  fst (get_and_move_items_no_album service fuel album_id batch_size w)
  = fst (get_and_move_items_no_album service fuel album_id' batch_size w).
Proof.
  split; [apply get_and_move_items_no_album_outcome|].
  by rewrite !get_and_move_items_no_album_outcome.
Qed.

(** ** The double fetch of the album listing *)



(** * Further properties *)

(** ** What the read-only functions send *)

Section Emits.
Context {St : Type} (service : Service St).

Lemma emits_mono {A} (P Q : request → Prop) (m : M St A) :
  (∀ r, P r → Q r) → emits P m → emits Q m.
Proof.
  intros HPQ Hm w. destruct (Hm w) as (t & Ht & HP & Hout).
  exists t. split; [done|]. split; [|done]. by eapply Forall_impl.
Qed.

Lemma emits_pure {A} (P : request → Prop) (m : M St A) :
  (∀ w, snd (m w) = w) → emits P m.
Proof. intros Hm w. exists []. by rewrite Hm, app_nil_r. Qed.

Lemma emits_bind {A B} (P : request → Prop) (m : M St A) (f : A → M St B) :
  emits P m → (∀ a, emits P (f a)) → emits P (m ≫= f).
Proof.
  intros Hm Hf w. destruct (Hm w) as (t & Ht & HP & Hout).
  unfold_M. destruct (m w) as [[a|e|] w1]; cbn in *; [|by exists t..].
  destruct (Hf a w1) as (t' & Ht' & HP' & Hout').
  exists (t ++ t'). rewrite Ht', Ht, Hout', Hout, app_assoc.
  split; [done|]. split; [|done]. by apply Forall_app.
Qed.

Lemma emits_execute {R} (P : request → Prop) req (ep : St → (exn + R) * St) :
  P req → emits P (execute req ep).
Proof.
  intros HP w. exists [req]. rewrite execute_run. cbn.
  split; [done|]. split; [|done]. by constructor.
Qed.

Lemma emits_getitem (P : request → Prop) (d : item) k :
  emits P (getitem (St:=St) d k).
Proof. apply emits_pure. intros w. unfold getitem. by destruct (d !! k). Qed.

Lemma emits_filterM {A} (P : request → Prop) (cond : A → M St bool) l :
  (∀ x, emits P (cond x)) → emits P (filterM cond l).
Proof.
  intros Hc. induction l as [|x l IH]; cbn [filterM].
  - by apply emits_pure.
  - apply emits_bind; [done|]. intros b.
    apply emits_bind; [done|]. intros rest. by apply emits_pure.
Qed.

Lemma emits_get_all_photos_loop fuel : ∀ acc tok,
  emits photo_listing (get_all_photos_loop service fuel acc tok).
Proof.
  induction fuel as [|fuel IH]; intros acc tok; cbn [get_all_photos_loop].
  - by apply emits_pure.
  - apply emits_bind; [apply emits_execute; by eexists|].
    intros results. destruct (negb _); [by apply emits_pure|apply IH].
Qed.

Lemma emits_album_search_loop fuel album_id : ∀ acc tok,
  emits member_search (album_search_loop service fuel album_id acc tok).
Proof.
  induction fuel as [|fuel IH]; intros acc tok; cbn [album_search_loop].
  - by apply emits_pure.
  - apply emits_bind; [apply emits_execute; by eexists _, _|].
    intros page. destruct (negb _); [by apply emits_pure|apply IH].
Qed.

Lemma emits_albums_for fuel albums : ∀ acc,
  emits member_search (albums_for service fuel albums acc).
Proof.
  induction albums as [|a rest IH]; intros acc; cbn [albums_for].
  - by apply emits_pure.
  - apply emits_bind; [apply emits_getitem|]. intros i.
    apply emits_bind; [apply emits_album_search_loop|]. intros acc'. apply IH.
Qed.

Lemma emits_get_album_item_ids_loop fuel : ∀ acc tok,
  emits (λ r, album_listing r ∨ member_search r)
        (get_album_item_ids_loop service fuel acc tok).
Proof.
  induction fuel as [|fuel IH]; intros acc tok; cbn [get_album_item_ids_loop].
  - by apply emits_pure.
  - apply emits_bind; [apply emits_execute; left; by eexists|].
    intros response. apply emits_bind.
    { eapply emits_mono; [|apply emits_albums_for]. by right. }
    intros acc'. apply emits_bind; [apply emits_execute; left; by eexists|].
    intros response'. destruct (negb _); [by apply emits_pure|apply IH].
Qed.

Lemma emits_find_in_page albums album_name :
  emits album_listing (find_in_page (St:=St) albums album_name).
Proof.
  apply emits_pure. intros w.
  induction albums as [|a rest IH]; [done|].
  cbn [find_in_page]. unfold getitem. destruct (a !! "title") as [t|]; [|done].
  unfold_M. by destruct (decide (t = album_name)).
Qed.

Lemma emits_find_album_loop album_name fuel : ∀ tok,
  emits album_listing (find_album_loop service fuel album_name tok).
Proof.
  induction fuel as [|fuel IH]; intros tok; cbn [find_album_loop].
  - by apply emits_pure.
  - apply emits_bind; [apply emits_execute; by eexists|].
    intros response. apply emits_bind; [apply emits_find_in_page|].
    intros [a|]; [by apply emits_pure|].
    destruct (negb _); [by apply emits_pure|apply IH].
Qed.

Lemma emits_get_items_no_album fuel batch_size :
  emits reads_library (get_items_no_album service fuel batch_size).
Proof.
  unfold get_items_no_album.
  apply emits_bind.
  { eapply emits_mono; [|apply emits_get_all_photos_loop]. by left. }
  intros all_photos. apply emits_bind.
  { eapply emits_mono; [|apply emits_get_album_item_ids_loop].
    intros r [?|?]; right; [by left|by right]. }
  intros ids. apply emits_bind; [|intros l; by apply emits_pure].
  apply emits_filterM. intros p. unfold not_in_album.
  apply emits_bind; [apply emits_getitem|]. intros i. by apply emits_pure.
Qed.

(** When the orphan resolver does not return, the move operation ends as
    the resolver does, in the same world. *)
Lemma get_and_move_items_no_album_abort fuel album_id batch_size w :
  (∀ candidates, fst (get_items_no_album service fuel batch_size w)
                 ≠ Ret candidates) →
  get_and_move_items_no_album service fuel album_id batch_size w
  = get_items_no_album service fuel batch_size w.
Proof.
  intros Hno.
  destruct (get_all_photos service fuel w) as [[all_photos|e|] w1] eqn:H1.
  2:{ unfold get_and_move_items_no_album, get_items_no_album.
      by rewrite !(bind_Raise _ _ _ _ _ H1). }
  2:{ unfold get_and_move_items_no_album, get_items_no_album.
      by rewrite !(bind_OutOfFuel _ _ _ _ H1). }
  destruct (get_album_item_ids service fuel w1) as [[ids|e|] w2] eqn:H2.
  2:{ unfold get_and_move_items_no_album, get_items_no_album.
      rewrite !(bind_Ret _ _ _ _ _ H1). by rewrite !(bind_Raise _ _ _ _ _ H2). }
  2:{ unfold get_and_move_items_no_album, get_items_no_album.
      rewrite !(bind_Ret _ _ _ _ _ H1). by rewrite !(bind_OutOfFuel _ _ _ _ H2). }
  destruct (decide (Forall (carries "id") all_photos)) as [Hid|Hnoid].
  - exfalso. eapply Hno.
    by rewrite (get_items_no_album_run service fuel batch_size _ _ _ _ _ H1 H2 Hid).
  - unfold get_and_move_items_no_album, get_items_no_album.
    rewrite !(bind_Ret _ _ _ _ _ H1), !(bind_Ret _ _ _ _ _ H2).
    by rewrite !(bind_Raise _ _ _ _ _
                   (filterM_not_in_album_KeyError ids _ w2 Hnoid)).
Qed.

End Emits.

(** X1: however [get_items_no_album] ends, it has sent only photo-listing
    (page size 100), album-listing and member-search (page size 50)
    requests, and has printed nothing: listing the orphans never looks up
    or moves an item. *)
Theorem get_items_no_album_read_only {St} (service : Service St)
    fuel batch_size (w : world St) :
  ∃ t,
    trace (snd (get_items_no_album service fuel batch_size w)) = trace w ++ t ∧
    Forall reads_library t ∧
    stdout (snd (get_items_no_album service fuel batch_size w)) = stdout w.
Proof. apply emits_get_items_no_album. Qed.

(** X2: however [find_album] ends, it has sent only album-listing requests
    (page size 50, application filter off) and has printed nothing. *)
Theorem find_album_read_only {St} (service : Service St)
    fuel album_name (w : world St) :
  ∃ t,
    trace (snd (find_album service fuel album_name w)) = trace w ++ t ∧
    Forall album_listing t ∧
    stdout (snd (find_album service fuel album_name w)) = stdout w.
Proof. apply emits_find_album_loop. Qed.

(** ** The photo enumeration *)

(** X3: whatever the service answers, every photo [get_all_photos] returns
    has a mime type starting with [image/] and a filename. *)
Theorem get_all_photos_only_photos {St} (service : Service St) fuel
    (w : world St) all_photos w' :
  get_all_photos service fuel w = (Ret all_photos, w') →
  Forall (λ it, image_typed it ∧ carries "filename" it) all_photos.
Proof. apply get_all_photos_is_photo. Qed.

Lemma get_all_photos_only_photos_witness :
  Forall (λ it, image_typed it ∧ carries "filename" it) five_photos_enumerated.
Proof.
  apply (get_all_photos_only_photos (library_service five_photos no_faults)
           5 start five_photos_enumerated five_photos_w1).
  reflexivity.
Defined.

Section Walk.
Context (L : library) (F : faults).
Local Abbreviation service := (library_service L F).

Lemma tokens_after_S k n :
  tokens_after k (S n) = Some (token_of (S k)) :: tokens_after (S k) n.
Proof. done. Qed.

Lemma get_all_photos_loop_requests fuel : ∀ k acc tok (w : world unit),
  page_index tok = k →
  (length (photo_pages L) - k < fuel)%nat →
  get_all_photos_loop service fuel acc tok w
  = (Ret (acc ++ filter (λ it, is_photo it = true)
                   (mjoin (drop k (photo_pages L)))),
     World (svc w)
       (trace w ++ (MediaItemsList 100
                      <$> tok :: tokens_after k (length (photo_pages L) - S k)))
       (stdout w)).
Proof.
  induction fuel as [|fuel IH]; intros k acc tok w Hk Hfuel; [lia|].
  cbn [get_all_photos_loop].
  rewrite (bind_Ret _ _ _ _ _ (mediaItems_list_execute_at_rest L F 100 tok w)).
  cbn [serve_items mediaItems items_nextPageToken].
  rewrite Hk, truthy_next_token.
  destruct (decide (S k < length (photo_pages L))%nat) as [Hlt|Hge].
  - rewrite bool_decide_eq_true_2 by done. cbn [negb].
    unfold next_token. rewrite decide_True by done.
    rewrite (IH (S k)); [|apply page_index_token_of|lia]. cbn [svc trace stdout].
    rewrite (drop_served (photo_pages L) k), filter_app, <-!app_assoc.
    replace (length (photo_pages L) - S k)%nat
      with (S (length (photo_pages L) - S (S k))) by lia.
    by rewrite tokens_after_S.
  - rewrite bool_decide_eq_false_2 by done. cbn [negb].
    rewrite drop_last_page by done.
    replace (length (photo_pages L) - S k)%nat with 0%nat by lia.
    done.
Qed.

End Walk.

(** X4: over a library at rest, with fuel for every page, [get_all_photos]
    sends one listing request per page (one in all when there is no page),
    in page order, and returns the image items with a filename of all pages
    in the order the pages hold them. *)
Theorem get_all_photos_walks_every_page (L : library) (F : faults) fuel
    (w : world unit) :
  (length (photo_pages L) < fuel)%nat →
  get_all_photos (library_service L F) fuel w
  = (Ret (enumerated L),
     World (svc w)
       (trace w ++ (MediaItemsList 100 <$> page_tokens (length (photo_pages L))))
       (stdout w)) ∧
  sublist (enumerated L) (mjoin (photo_pages L)) ∧
  ∀ it, it ∈ enumerated L ↔
        it ∈ mjoin (photo_pages L) ∧ image_typed it ∧ carries "filename" it.
Proof.
  intros Hfuel. split; [|split].
  - unfold get_all_photos.
    by rewrite (get_all_photos_loop_requests L F fuel 0 [] None w); [|done|lia].
  - apply sublist_filter.
  - intros it. unfold enumerated.
    rewrite list_elem_of_filter, is_photo_spec. tauto.
Qed.

Lemma get_all_photos_walks_every_page_witness :
  fst (get_all_photos (library_service five_photos no_faults) 3 start)
  = Ret five_photos_enumerated ∧
  trace (snd (get_all_photos (library_service five_photos no_faults) 3 start))
  = [MediaItemsList 100 None; MediaItemsList 100 (Some "x")].
Proof.
  destruct (get_all_photos_walks_every_page five_photos no_faults 3 start)
    as (Hrun & _); [cbn; lia|].
  rewrite Hrun. split; reflexivity.
Defined.

(** ** More on finding an album by name *)

Section Sound.
Context {St : Type} (service : Service St).

Lemma find_in_page_sound (albums : list item) album_name (w : world St) a w' :
  find_in_page albums album_name w = (Ret (Some a), w') →
  a ∈ albums ∧ a !! "title" = Some album_name.
Proof.
  induction albums as [|x rest IH]; [done|].
  cbn [find_in_page]. unfold getitem.
  destruct (x !! "title") as [t|] eqn:Ht; [|done]. unfold_M.
  destruct (decide (t = album_name)) as [->|Hne].
  - intros [= <- _]. split; [by left|done].
  - intros [Hin Ha]%IH. split; [by right|done].
Qed.

Lemma find_album_loop_sound album_name fuel : ∀ tok (w : world St) a w',
  find_album_loop service fuel album_name tok w = (Ret (Some a), w') →
  a !! "title" = Some album_name.
Proof.
  induction fuel as [|fuel IH]; intros tok w a w'; [done|].
  cbn [find_album_loop]. intros H.
  apply bind_Ret_inv in H as (response & w1 & _ & H).
  apply bind_Ret_inv in H as (found & w2 & Hfound & H).
  destruct found as [b|].
  - unfold_M. injection H as <- _. by apply find_in_page_sound in Hfound as [_ ?].
  - destruct (negb _); [done|]. by eapply IH.
Qed.
End Sound.

(** X5: whatever the service answers, an album that [find_album] returns
    bears exactly the requested title. *)
Theorem find_album_sound {St} (service : Service St) fuel album_name
    (w : world St) a w' :
  find_album service fuel album_name w = (Ret (Some a), w') →
  a !! "title" = Some album_name.
Proof. apply find_album_loop_sound. Qed.

Lemma find_album_sound_witness :
  album "a1" "Vacation" !! "title" = Some "Vacation".
Proof.
  apply (find_album_sound (library_service two_albums no_faults) 3 "Vacation"
           start (album "a1" "Vacation")
           (World () [AlbumsList 50 false None] [])).
  reflexivity.
Defined.

Section EarlyStop.
Context (L : library) (F : faults).
Local Abbreviation service := (library_service L F).

(** The listing loop up to the page that holds the match. *)
Lemma find_album_loop_stops album_name before page later a fuel :
  album_pages L = before ++ page :: later →
  scan_titles page album_name = Ret (Some a) →
  ∀ k tok (w : world unit),
    page_index tok = k →
    (k ≤ length before)%nat →
    (length before - k < fuel)%nat →
    Forall (titled_other album_name) (mjoin (drop k before)) →
    find_album_loop service fuel album_name tok w
    = (Ret (Some a),
       World (svc w)
         (trace w ++ (AlbumsList 50 false
                        <$> tok :: tokens_after k (length before - k)))
         (stdout w)).
Proof.
  intros Hpages Hpage.
  induction fuel as [|fuel IH]; intros k tok w Hk Hle Hfuel Hother; [lia|].
  cbn [find_album_loop].
  rewrite (bind_Ret _ _ _ _ _ (albums_list_execute_at_rest L F 50 false tok w)).
  cbn [serve_albums albums albums_nextPageToken]. rewrite Hk.
  set (w1 := World _ _ _).
  destruct (decide (k = length before)) as [->|Hne].
  - rewrite Hpages, list_lookup_middle by done. cbn [default].
    rewrite (bind_Ret _ _ _ _ _
               (eq_trans (find_in_page_scan page album_name w1)
                         (f_equal (λ o, (o, w1)) Hpage))).
    rewrite Nat.sub_diag. done.
  - assert (Hlt : (k < length before)%nat) by lia.
    destruct (lookup_lt_is_Some_2 before k Hlt) as [p Hp].
    assert (Hp' : album_pages L !! k = Some p).
    { rewrite Hpages. by rewrite lookup_app_l. }
    rewrite Hp'. cbn [default].
    rewrite (drop_S _ _ _ Hp) in Hother. cbn in Hother.
    apply Forall_app in Hother as [Hp_other Hrest].
    rewrite (bind_Ret _ _ _ _ _
               (eq_trans (find_in_page_scan p album_name w1)
                         (f_equal (λ o, (o, w1))
                            (scan_titles_other p album_name Hp_other)))).
    rewrite truthy_next_token.
    rewrite bool_decide_eq_true_2
      by (rewrite Hpages, length_app; cbn; lia).
    cbn [negb]. unfold next_token.
    rewrite decide_True by (rewrite Hpages, length_app; cbn; lia).
    rewrite (IH (S k)); [|apply page_index_token_of|lia|lia|done].
    subst w1. cbn [svc trace stdout]. rewrite <-app_assoc.
    replace (length before - k)%nat with (S (length before - S k)) by lia.
    by rewrite tokens_after_S.
Qed.
End EarlyStop.

(** X6: over a library at rest, [find_album] stops at the first listing page
    that holds an album of the requested title: it returns the first such
    album of that page and has requested that page and the ones before it,
    none of the later ones; fuel for those pages is enough. *)
Theorem find_album_stops_at_match (L : library) (F : faults) album_name fuel
    (w : world unit) before pre a post later :
  album_pages L = before ++ (pre ++ a :: post) :: later →
  Forall (titled_other album_name) (mjoin before) →
  Forall (titled_other album_name) pre →
  a !! "title" = Some album_name →
  (length before < fuel)%nat →
  find_album (library_service L F) fuel album_name w
  = (Ret (Some a),
     World (svc w)
       (trace w ++ (AlbumsList 50 false <$> page_tokens (S (length before))))
       (stdout w)).
Proof.
  intros Hpages Hbefore Hpre Ha Hfuel. unfold find_album.
  rewrite (find_album_loop_stops L F album_name before (pre ++ a :: post)
             later a fuel Hpages (scan_titles_first pre post a album_name Hpre Ha)
             0 None w); [|done|lia|lia|done].
  unfold page_tokens. cbn [Nat.sub]. by rewrite !Nat.sub_0_r.
Qed.

Lemma find_album_stops_at_match_witness :
  find_album (library_service two_albums no_faults) 1 "Vacation" start
  = (Ret (Some (album "a1" "Vacation")),
     World () [AlbumsList 50 false None] []).
Proof.
  apply (find_album_stops_at_match two_albums no_faults "Vacation" 1 start
           [] [] (album "a1" "Vacation") [] [[album "a2" "Vacation"]]).
  - reflexivity.
  - constructor.
  - constructor.
  - reflexivity.
  - cbn. lia.
Defined.

(** ** An album without an id *)

Section IdlessAlbum.
Context (L : library) (F : faults).
Local Abbreviation service := (library_service L F).

Lemma albums_for_at_rest_KeyError fuel (pre post : list item) a :
  a !! "id" = None →
  ∀ acc (w : world unit),
    Forall (carries "id") pre →
    (max_list_with (λ a, length (pages_of L a)) pre < fuel)%nat →
    ∃ w', albums_for service fuel (pre ++ a :: post) acc w
          = (Raise (KeyError "id"), w').
Proof.
  intros Ha. induction pre as [|x pre IH]; intros acc w Hid Hfuel.
  - exists w. cbn [app albums_for]. apply bind_Raise.
    unfold getitem. by rewrite Ha.
  - apply Forall_cons in Hid as [[i Hi] Hpre]. cbn in Hfuel.
    cbn [app albums_for].
    rewrite (bind_Ret _ _ _ _ _ (getitem_Some x "id" i w Hi)).
    destruct (album_search_at_rest L F x i fuel acc w Hi) as [w1 H1]; [lia|].
    rewrite (bind_Ret _ _ _ _ _ H1). apply IH; [done|lia].
Qed.

Lemma get_album_item_ids_loop_KeyError before pre a post later fuel :
  album_pages L = before ++ (pre ++ a :: post) :: later →
  Forall (carries "id") (mjoin before) →
  Forall (carries "id") pre →
  a !! "id" = None →
  ∀ k acc tok (w : world unit),
    page_index tok = k →
    (k ≤ length before)%nat →
    (length before - k
     + max_list_with (λ a, length (pages_of L a)) (listed_albums L) + 1
     < fuel)%nat →
    ∃ w', get_album_item_ids_loop service fuel acc tok w
          = (Raise (KeyError "id"), w').
Proof.
  intros Hpages Hbefore Hpre Ha.
  induction fuel as [|fuel IH]; intros k acc tok w Hk Hle Hfuel; [lia|].
  cbn [get_album_item_ids_loop].
  rewrite (bind_Ret _ _ _ _ _ (albums_list_execute_at_rest L F 50 false tok w)).
  cbn [serve_albums albums]. rewrite Hk.
  set (w1 := World _ _ _).
  pose proof (served_page_subseteq L k) as Hsub.
  pose proof (max_pages_subseteq L _ _ Hsub) as Hmax.
  destruct (decide (k = length before)) as [->|Hne].
  - rewrite Hpages, list_lookup_middle in Hsub, Hmax |- * by done.
    cbn [default] in *.
    destruct (albums_for_at_rest_KeyError fuel pre post a Ha acc w1 Hpre)
      as [w2 H2].
    { assert (pre ⊆ pre ++ a :: post) as Hsub'%(max_pages_subseteq L)
        by (intros x Hx; apply elem_of_app; by left).
      cbv [id] in Hmax. lia. }
    exists w2. by apply bind_Raise.
  - assert (Hlt : (k < length before)%nat) by lia.
    destruct (lookup_lt_is_Some_2 before k Hlt) as [p Hp].
    assert (Hp' : album_pages L !! k = Some p).
    { rewrite Hpages. by rewrite lookup_app_l. }
    rewrite Hp' in Hsub, Hmax |- *. cbn [default] in *.
    destruct (albums_for_at_rest L F fuel p acc w1) as [w2 H2].
    { apply Forall_forall. intros x Hx.
      apply (proj1 (Forall_forall _ _) Hbefore).
      apply list_elem_of_join. exists p. split; [done|].
      by eapply list_elem_of_lookup_2. }
    { cbv [id] in Hmax. lia. }
    rewrite (bind_Ret _ _ _ _ _ H2).
    rewrite (bind_Ret _ _ _ _ _ (albums_list_execute_at_rest L F 50 false tok w2)).
    cbn [serve_albums albums_nextPageToken]. rewrite Hk, truthy_next_token.
    rewrite bool_decide_eq_true_2
      by (rewrite Hpages, length_app; cbn; lia).
    cbn [negb]. unfold next_token.
    rewrite decide_True by (rewrite Hpages, length_app; cbn; lia).
    apply (IH (S k)); [apply page_index_token_of|lia|lia].
Qed.
End IdlessAlbum.

(** X7: over a library at rest, when the first listed album without an
    [id] comes after albums that all carry one, [get_album_item_ids] raises
    [KeyError] for the missing key: the ids collected from the albums before
    it are not returned. *)
Theorem get_album_item_ids_idless_album (L : library) (F : faults) fuel
    (w : world unit) before pre a post later :
  album_pages L = before ++ (pre ++ a :: post) :: later →
  Forall (carries "id") (mjoin before) →
  Forall (carries "id") pre →
  a !! "id" = None →
  (enough_fuel L ≤ fuel)%nat →
  ∃ w', get_album_item_ids (library_service L F) fuel w
        = (Raise (KeyError "id"), w').
Proof.
  intros Hpages Hbefore Hpre Ha Hfuel. unfold get_album_item_ids.
  apply (get_album_item_ids_loop_KeyError L F before pre a post later fuel
           Hpages Hbefore Hpre Ha 0 ∅ None w); [done|lia|].
  unfold enough_fuel in Hfuel.
  assert (length before < length (album_pages L))%nat
    by (rewrite Hpages, length_app; cbn; lia).
  lia.
Qed.

Lemma get_album_item_ids_idless_album_witness :
  ∃ w', get_album_item_ids (library_service idless_album_library no_faults) 4 start
        = (Raise (KeyError "id"), w').
Proof.
  apply (get_album_item_ids_idless_album idless_album_library no_faults 4 start
           [] [album "a1" "Vacation"] {[ "title" := "Untitled" ]} [] []).
  - reflexivity.
  - constructor.
  - repeat constructor. by eexists.
  - reflexivity.
  - vm_compute. lia.
Defined.

(** ** More on the move operation *)

Section Phases.
Context {St : Type} (service : Service St).

(** Look-ups that find nothing leave the list of valid ids as it was. *)
Lemma validate_ids_finds_nothing media_item_ids : ∀ valid_ids (w : world St),
  finds_nothing service →
  ∃ w', validate_ids service valid_ids media_item_ids w = (Ret valid_ids, w') ∧
        trace w' = trace w ++ (MediaItemsGet <$> media_item_ids) ∧
        ∃ lines, stdout w' = stdout w ++ lines ∧
                 length lines = length media_item_ids.
Proof.
  intros valid_ids w Hnone. revert valid_ids w.
  induction media_item_ids as [|i rest IH]; intros valid_ids w.
  - exists w. cbn. rewrite app_nil_r. split; [done|]. split; [done|].
    exists []. by rewrite app_nil_r.
  - cbn [validate_ids]. pose proof (Hnone i (svc w)) as Hi.
    destruct (mediaItems_get service i (svc w)) as [[e|it] s'] eqn:Hget;
      cbn in Hi.
    + rewrite (bind_Ret _ _ _ _ _ (validate_one_error service _ _ _ _ _ Hget)).
      destruct (IH valid_ids (after w (MediaItemsGet i) s' [invalid_line i e]))
        as (w' & -> & Htr & lines & Hout & Hlen).
      exists w'. split; [done|]. cbn in Htr, Hout. split.
      * by rewrite Htr, <-app_assoc.
      * exists (invalid_line i e :: lines). rewrite Hout, <-app_assoc.
        split; [done|]. cbn. lia.
    + subst it.
      rewrite (bind_Ret _ _ _ _ _ (validate_one_empty service _ _ _ _ Hget)).
      destruct (IH valid_ids (after w (MediaItemsGet i) s' [not_found_line i]))
        as (w' & -> & Htr & lines & Hout & Hlen).
      exists w'. split; [done|]. cbn in Htr, Hout. split.
      * by rewrite Htr, <-app_assoc.
      * exists (not_found_line i :: lines). rewrite Hout, <-app_assoc.
        split; [done|]. cbn. lia.
Qed.

End Phases.

(** X8: when there is no orphan to move, [get_and_move_items_no_album]
    prints the heading and [No photos without an album were found.], sends
    no look-up and no batch-add, and returns the empty list. *)
Theorem get_and_move_items_no_album_nothing_to_move {St}
    (service : Service St) fuel album_id batch_size (w : world St) w1 :
  get_items_no_album service fuel batch_size w = (Ret [], w1) →
  get_and_move_items_no_album service fuel album_id batch_size w
  = (Ret [],
     World (svc w1) (trace w1)
       (stdout w1 ++ [listing_line batch_size;
                      "No photos without an album were found."])).
Proof.
  intros Hrun.
  apply get_items_no_album_inv in Hrun
    as (all_photos & w0 & ids & H1 & H2 & Hid & Hnil).
  rewrite (get_and_move_items_no_album_phases service fuel album_id batch_size
             _ _ _ _ _ H1 H2 Hid).
  rewrite <-Hnil. cbn. unfold_M. cbn. by rewrite <-app_assoc.
Qed.

Lemma get_and_move_items_no_album_nothing_to_move_witness :
  get_and_move_items_no_album (library_service five_photos no_faults)
    5 "a1" 0 start
  = (Ret [],
     World () (trace five_photos_w2)
       [listing_line 0; "No photos without an album were found."]).
Proof.
  apply (get_and_move_items_no_album_nothing_to_move
           (library_service five_photos no_faults) 5 "a1" 0 start
           five_photos_w2).
  reflexivity.
Defined.

(** X9: with a batch size [>= 0], [get_and_move_items_no_album] sends at
    most [batch_size] look-ups, one per candidate in order, followed by at
    most as many batch-adds, each with a single id and the given album. *)
Theorem get_and_move_items_no_album_bounded {St} (service : Service St)
    fuel album_id batch_size (w : world St) candidates w1 :
  0 ≤ batch_size →
  get_items_no_album service fuel batch_size w = (Ret candidates, w1) →
  ∃ found w2,
    get_and_move_items_no_album service fuel album_id batch_size w
    = (Ret candidates, w2) ∧
    trace w2 = trace w1 ++ (MediaItemsGet <$> ids_of candidates)
                        ++ ((λ i, AlbumsBatchAdd album_id [i]) <$> found) ∧
    Z.of_nat (length (ids_of candidates)) ≤ batch_size ∧
    (length found ≤ length (ids_of candidates))%nat.
Proof.
  intros Hb Hrun.
  apply get_items_no_album_inv in Hrun
    as (all_photos & w0 & ids & H1 & H2 & Hid & ->).
  destruct (get_and_move_items_no_album_run service fuel album_id batch_size
              _ _ _ _ _ H1 H2 Hid) as (found & w2 & Hmove & Hsub & Htr).
  exists found, w2. split; [done|]. split; [done|]. split.
  - pose proof (length_page_ids
                  (slice_to (filter (orphan ids) all_photos) batch_size)) as Hlen.
    rewrite slice_to_nonneg in Hlen |- * by done.
    rewrite length_take in Hlen. unfold ids_of. unfold page_ids in Hlen. lia.
  - by apply sublist_length.
Qed.

Lemma get_and_move_items_no_album_bounded_witness :
  ∃ found w2,
    get_and_move_items_no_album (library_service five_photos flaky)
      5 "a1" 2 start
    = (Ret [photo "p2"; photo "p4"], w2) ∧
    trace w2 = trace five_photos_w2
               ++ (MediaItemsGet <$> ids_of [photo "p2"; photo "p4"])
               ++ ((λ i, AlbumsBatchAdd "a1" [i]) <$> found) ∧
    Z.of_nat (length (ids_of [photo "p2"; photo "p4"])) ≤ 2 ∧
    (length found ≤ length (ids_of [photo "p2"; photo "p4"]))%nat.
Proof.
  apply (get_and_move_items_no_album_bounded
           (library_service five_photos flaky) 5 "a1" 2 start
           [photo "p2"; photo "p4"] five_photos_w2).
  - lia.
  - reflexivity.
Defined.

Section Diagnostics.
Context {St : Type} (service : Service St).

Lemma validate_ids_stdout media_item_ids : ∀ valid_ids (w : world St),
  ∃ found w' lines,
    validate_ids service valid_ids media_item_ids w
    = (Ret (valid_ids ++ found), w') ∧
    stdout w' = stdout w ++ lines ∧
    length lines = length media_item_ids.
Proof.
  induction media_item_ids as [|i rest IH]; intros valid_ids w.
  - exists [], w, []. by rewrite !app_nil_r.
  - destruct (validate_one_total service valid_ids i w)
      as (v1 & s1 & line & H1 & Hv).
    destruct (IH v1 (after w (MediaItemsGet i) s1 [line]))
      as (found & w' & lines & H2 & Hout & Hlen).
    cbn [validate_ids]. rewrite (bind_Ret _ _ _ _ _ H1), H2.
    cbn in Hout. destruct Hv as [->| ->].
    + exists found, w', (line :: lines). rewrite Hout, <-app_assoc.
      repeat split. cbn. lia.
    + exists (i :: found), w', (line :: lines).
      rewrite Hout, <-!app_assoc. repeat split. cbn. lia.
Qed.

Lemma move_ids_stdout album_id valid_ids : ∀ w : world St,
  ∃ w' lines,
    move_ids service album_id valid_ids w = (Ret (), w') ∧
    stdout w' = stdout w ++ lines ∧
    length lines = length valid_ids.
Proof.
  unfold move_ids. induction valid_ids as [|i rest IH]; intros w.
  - exists w, []. by rewrite app_nil_r.
  - destruct (move_one_total service album_id i w) as (s1 & line & H1).
    destruct (IH (after w (add_request album_id i) s1 [line]))
      as (w' & lines & H2 & Hout & Hlen).
    cbn [for_each]. rewrite (bind_Ret _ _ _ _ _ H1), H2. cbn in Hout.
    exists w', (line :: lines). rewrite Hout, <-app_assoc.
    repeat split. cbn. lia.
Qed.

Lemma validate_and_move_stdout album_id (photos_to_move : list item)
    (w : world St) :
  Forall (carries "id") photos_to_move →
  ∃ w' lines,
    validate_and_move service album_id photos_to_move w = (Ret (), w') ∧
    stdout w' = stdout w ++ lines ∧
    (length photos_to_move < length lines)%nat.
Proof.
  intros Hid. unfold validate_and_move.
  destruct photos_to_move as [|p l] eqn:Hl.
  - eexists _, [_]. split; [reflexivity|]. split; [done|]. cbn. lia.
  - rewrite <-Hl in *. clear Hl.
    rewrite (bind_Ret _ _ _ _ _ (mapM_getitem_id _ w Hid)).
    destruct (validate_ids_stdout (ids_of photos_to_move) [] w)
      as (found & w1 & lines & H1 & Hout & Hlen).
    rewrite (bind_Ret _ _ _ _ _ H1). cbn [app] in *.
    assert (Hids : length (ids_of photos_to_move) = length photos_to_move).
    { clear -Hid. induction Hid as [|p l [i Hi] _ IH]; [done|].
      unfold ids_of in *. cbn. rewrite Hi. cbn. by rewrite IH. }
    destruct found as [|i found'].
    + eexists _, (lines ++ [_]). split; [reflexivity|]. cbn.
      rewrite Hout, <-app_assoc. split; [done|]. rewrite length_app. cbn. lia.
    + destruct (move_ids_stdout album_id (i :: found') w1)
        as (w2 & lines' & H2 & Hout' & Hlen').
      exists w2, (lines ++ lines'). split; [done|].
      rewrite Hout', Hout, <-app_assoc. split; [done|].
      rewrite length_app. cbn in Hlen'. lia.
Qed.

Lemma validate_and_move_finds_nothing album_id (photos_to_move : list item)
    (w : world St) :
  finds_nothing service →
  Forall (carries "id") photos_to_move →
  photos_to_move ≠ [] →
  ∃ w' lines,
    validate_and_move service album_id photos_to_move w = (Ret (), w') ∧
    trace w' = trace w ++ (MediaItemsGet <$> ids_of photos_to_move) ∧
    stdout w' = stdout w ++ lines
                ++ ["No valid media item IDs found to add to the album."] ∧
    length lines = length (ids_of photos_to_move).
Proof.
  intros Hnone Hid Hne. unfold validate_and_move.
  destruct photos_to_move as [|p l] eqn:Hl; [done|].
  rewrite <-Hl in *. clear Hl.
  rewrite (bind_Ret _ _ _ _ _ (mapM_getitem_id _ w Hid)).
  destruct (validate_ids_finds_nothing service (ids_of photos_to_move) [] w Hnone)
    as (w1 & Hval & Htr & lines & Hout & Hlen).
  rewrite (bind_Ret _ _ _ _ _ Hval).
  eexists _, lines. split; [reflexivity|]. cbn.
  split; [done|]. split; [|done]. by rewrite Hout, <-app_assoc.
Qed.
End Diagnostics.

(** X10: whenever the candidates are computed, the move operation prints,
    in this order, the heading with the batch size, one line with filename
    and id per returned photo, and then more diagnostic lines than there
    are candidates; it prints nothing else. *)
Theorem get_and_move_items_no_album_prints_candidates {St}
    (service : Service St) fuel album_id batch_size (w : world St)
    candidates w1 :
  get_items_no_album service fuel batch_size w = (Ret candidates, w1) →
  ∃ w2 diagnostics,
    get_and_move_items_no_album service fuel album_id batch_size w
    = (Ret candidates, w2) ∧
    stdout w2 = stdout w1 ++ listing_line batch_size
                  :: (photo_line <$> candidates) ++ diagnostics ∧
    (length candidates < length diagnostics)%nat.
Proof.
  intros Hrun.
  apply get_items_no_album_inv in Hrun
    as (all_photos & w0 & ids & H1 & H2 & Hid & ->).
  rewrite (get_and_move_items_no_album_phases service fuel album_id batch_size
             _ _ _ _ _ H1 H2 Hid).
  set (candidates := slice_to _ _).
  assert (Hid' : Forall (carries "id") candidates).
  { eapply Forall_sublist; [|done].
    etrans; [apply slice_to_sublist|apply sublist_filter]. }
  destruct (validate_and_move_stdout service album_id candidates
              (World (svc w1) (trace w1)
                 (stdout w1 ++ listing_line batch_size
                    :: (photo_line <$> candidates))) Hid')
    as (w2 & lines & Hvm & Hout & Hlen).
  exists w2, lines. rewrite (bind_Ret _ _ _ _ _ Hvm). split; [done|].
  split; [|done]. cbn in Hout. by rewrite Hout, <-app_assoc.
Qed.

Lemma get_and_move_items_no_album_prints_candidates_witness :
  ∃ w2 diagnostics,
    get_and_move_items_no_album (library_service five_photos flaky)
      5 "a1" 2 start
    = (Ret [photo "p2"; photo "p4"], w2) ∧
    stdout w2 = stdout five_photos_w2 ++ listing_line 2
                  :: (photo_line <$> [photo "p2"; photo "p4"]) ++ diagnostics ∧
    (length [photo "p2"; photo "p4"] < length diagnostics)%nat.
Proof.
  apply (get_and_move_items_no_album_prints_candidates
           (library_service five_photos flaky) 5 "a1" 2 start
           [photo "p2"; photo "p4"] five_photos_w2).
  reflexivity.
Defined.

(** X11: when no look-up answers with an item, the move operation looks up
    every candidate, sends no batch-add, and ends its output with
    [No valid media item IDs found to add to the album.] *)
Theorem get_and_move_items_no_album_nothing_valid {St}
    (service : Service St) fuel album_id batch_size (w : world St)
    candidates w1 :
  finds_nothing service →
  candidates ≠ [] →
  get_items_no_album service fuel batch_size w = (Ret candidates, w1) →
  ∃ w2 lines,
    get_and_move_items_no_album service fuel album_id batch_size w
    = (Ret candidates, w2) ∧
    trace w2 = trace w1 ++ (MediaItemsGet <$> ids_of candidates) ∧
    stdout w2 = stdout w1 ++ listing_line batch_size
                  :: (photo_line <$> candidates) ++ lines
                  ++ ["No valid media item IDs found to add to the album."] ∧
    length lines = length (ids_of candidates).
Proof.
  intros Hnone Hne Hrun.
  apply get_items_no_album_inv in Hrun
    as (all_photos & w0 & ids & H1 & H2 & Hid & ->).
  rewrite (get_and_move_items_no_album_phases service fuel album_id batch_size
             _ _ _ _ _ H1 H2 Hid).
  set (candidates := slice_to _ _) in *.
  assert (Hid' : Forall (carries "id") candidates).
  { eapply Forall_sublist; [|done].
    etrans; [apply slice_to_sublist|apply sublist_filter]. }
  destruct (validate_and_move_finds_nothing service album_id candidates
              (World (svc w1) (trace w1)
                 (stdout w1 ++ listing_line batch_size
                    :: (photo_line <$> candidates))) Hnone Hid' Hne)
    as (w2 & lines & Hvm & Htr & Hout & Hlen).
  exists w2, lines. rewrite (bind_Ret _ _ _ _ _ Hvm).
  split; [done|]. split; [done|]. split; [|done].
  cbn in Hout. by rewrite Hout, <-!app_assoc.
Qed.

Lemma get_and_move_items_no_album_nothing_valid_witness :
  ∃ w2 lines,
    get_and_move_items_no_album (vanished_service five_photos) 5 "a1" 2 start
    = (Ret [photo "p2"; photo "p4"], w2) ∧
    trace w2 = trace five_photos_w2
               ++ (MediaItemsGet <$> ids_of [photo "p2"; photo "p4"]) ∧
    stdout w2 = stdout five_photos_w2 ++ listing_line 2
                  :: (photo_line <$> [photo "p2"; photo "p4"]) ++ lines
                  ++ ["No valid media item IDs found to add to the album."] ∧
    length lines = length (ids_of [photo "p2"; photo "p4"]).
Proof.
  apply (get_and_move_items_no_album_nothing_valid
           (vanished_service five_photos) 5 "a1" 2 start
           [photo "p2"; photo "p4"] five_photos_w2).
  - intros media_id []. exact I.
  - discriminate.
  - reflexivity.
Defined.

Section Refused.
Context (L : library) (F : faults).
Local Abbreviation service := (library_service L F).

Lemma mediaItems_get_at_rest_found i (s : unit) :
  i ∉ lookup_fails F → listed_id L i →
  ∃ it : item, mediaItems_get service i s = (inr it, s) ∧ it ≠ ∅.
Proof.
  intros Hok (p & Hp & Hi). cbn. rewrite decide_False by done.
  unfold lookup_by_id.
  destruct (list_find_elem_of (has_id i) _ p Hp Hi) as [[k it] Hfind].
  rewrite Hfind. cbn. exists it. split; [done|].
  apply list_find_Some in Hfind as (_ & Hit & _).
  intros ->. unfold has_id in Hit. by rewrite lookup_empty in Hit.
Qed.

Lemma validate_ids_at_rest media_item_ids : ∀ valid_ids (w : world unit),
  Forall (listed_id L) media_item_ids →
  ∃ w', validate_ids service valid_ids media_item_ids w
        = (Ret (valid_ids ++ filter (λ i, i ∉ lookup_fails F) media_item_ids),
           w') ∧
        trace w' = trace w ++ (MediaItemsGet <$> media_item_ids).
Proof.
  induction media_item_ids as [|i rest IH]; intros valid_ids w Hl.
  - exists w. cbn. by rewrite !app_nil_r.
  - apply Forall_cons in Hl as [Hi Hrest]. cbn [validate_ids].
    rewrite filter_cons.
    destruct (decide (i ∉ lookup_fails F)) as [Hok|Hrefused].
    + destruct (mediaItems_get_at_rest_found i (svc w) Hok Hi)
        as (it & Hget & Hne).
      rewrite (bind_Ret _ _ _ _ _
                 (validate_one_valid service _ _ _ _ _ Hget Hne)).
      destruct (IH (valid_ids ++ [i])
                  (after w (MediaItemsGet i) (svc w) [valid_line i it]) Hrest)
        as (w' & -> & Htr).
      exists w'. rewrite <-app_assoc. split; [done|].
      cbn in Htr. by rewrite Htr, <-app_assoc.
    + assert (Hget : mediaItems_get service i (svc w)
                     = (inl (HttpError "404 Not Found"), svc w)).
      { cbn. rewrite decide_True; [done|]. by apply dec_stable. }
      rewrite (bind_Ret _ _ _ _ _ (validate_one_error service _ _ _ _ _ Hget)).
      destruct (IH valid_ids
                  (after w (MediaItemsGet i) (svc w)
                     [invalid_line i (HttpError "404 Not Found")]) Hrest)
        as (w' & -> & Htr).
      exists w'. split; [done|]. cbn in Htr. by rewrite Htr, <-app_assoc.
Qed.

Lemma validate_and_move_at_rest album_id (photos_to_move : list item)
    (w : world unit) :
  Forall (carries "id") photos_to_move →
  Forall (listed_id L) (ids_of photos_to_move) →
  ∃ w', validate_and_move service album_id photos_to_move w = (Ret (), w') ∧
        trace w' = trace w ++ (MediaItemsGet <$> ids_of photos_to_move)
                   ++ (add_request album_id
                         <$> filter (λ i, i ∉ lookup_fails F)
                               (ids_of photos_to_move)).
Proof.
  intros Hid Hlisted. unfold validate_and_move.
  destruct photos_to_move as [|p l] eqn:Hl.
  - eexists. split; [reflexivity|]. cbn. by rewrite app_nil_r.
  - rewrite <-Hl in *. clear Hl.
    rewrite (bind_Ret _ _ _ _ _ (mapM_getitem_id _ w Hid)).
    destruct (validate_ids_at_rest (ids_of photos_to_move) [] w Hlisted)
      as (w1 & H1 & Htr).
    rewrite (bind_Ret _ _ _ _ _ H1). cbn [app].
    destruct (filter _ (ids_of photos_to_move)) as [|i found'] eqn:Hfound.
    + eexists. split; [reflexivity|]. cbn. by rewrite Htr, app_nil_r.
    + destruct (move_ids_total service album_id (i :: found') w1)
        as (w2 & H2 & Htr2 & _).
      exists w2. split; [done|]. by rewrite Htr2, Htr, <-app_assoc.
Qed.

Lemma ids_of_listed (photos : list item) :
  photos ⊆ mjoin (photo_pages L) → Forall (listed_id L) (ids_of photos).
Proof.
  intros Hsub. apply Forall_forall. intros i Hi.
  apply list_elem_of_omap in Hi as (p & Hp & Hpi).
  exists p. split; [by apply Hsub|done].
Qed.
End Refused.

(** X12: over a library at rest whose albums and enumerated photos carry
    their ids, the move operation looks up every candidate in order and then
    submits, one id per batch-add and in order, exactly the candidates whose
    look-up the service did not refuse; a refused batch-add does not keep
    the later ones from being sent. *)
Theorem get_and_move_items_no_album_skips_refused (L : library) (F : faults)
    fuel album_id batch_size (w : world unit) :
  Forall (carries "id") (listed_albums L) →
  Forall (carries "id") (enumerated L) →
  (enough_fuel L ≤ fuel)%nat →
  let candidates := slice_to (orphans_of L) batch_size in
  ∃ w1 w2,
    get_items_no_album (library_service L F) fuel batch_size w
    = (Ret candidates, w1) ∧
    get_and_move_items_no_album (library_service L F) fuel album_id batch_size w
    = (Ret candidates, w2) ∧
    trace w2 = trace w1 ++ (MediaItemsGet <$> ids_of candidates)
               ++ ((λ i, AlbumsBatchAdd album_id [i])
                     <$> filter (λ i, i ∉ lookup_fails F) (ids_of candidates)).
Proof.
  intros Halbums Hphotos Hfuel candidates.
  destruct (get_items_no_album_at_rest L F fuel batch_size w
              Halbums Hphotos Hfuel) as [w1 Hrun].
  exists w1. fold candidates in Hrun.
  pose proof Hrun as Hinv.
  apply get_items_no_album_inv in Hinv
    as (all_photos & w0 & ids & H1 & H2 & Hid & Hc).
  rewrite (get_and_move_items_no_album_phases (library_service L F) fuel
             album_id batch_size _ _ _ _ _ H1 H2 Hid).
  rewrite <-Hc.
  assert (Hsub : candidates ⊆ mjoin (photo_pages L)).
  { intros p Hp. unfold candidates, orphans_of, enumerated in Hp.
    apply (sublist_subseteq _ _ (slice_to_sublist _ _)) in Hp.
    apply list_elem_of_filter in Hp as [_ Hp].
    by apply list_elem_of_filter in Hp as [_ Hp]. }
  assert (Hid' : Forall (carries "id") candidates).
  { eapply Forall_sublist; [|exact Hphotos]. unfold candidates, orphans_of.
    etrans; [apply slice_to_sublist|apply sublist_filter]. }
  destruct (validate_and_move_at_rest L F album_id candidates
              (World (svc w1) (trace w1)
                 (stdout w1 ++ listing_line batch_size
                    :: (photo_line <$> candidates)))
              Hid' (ids_of_listed L candidates Hsub)) as (w2 & Hvm & Htr).
  exists w2. rewrite (bind_Ret _ _ _ _ _ Hvm). by split.
Qed.

Lemma get_and_move_items_no_album_skips_refused_witness :
  ∃ w1 w2,
    get_items_no_album (library_service five_photos flaky) 7 10 start
    = (Ret (slice_to (orphans_of five_photos) 10), w1) ∧
    get_and_move_items_no_album (library_service five_photos flaky)
      7 "a1" 10 start
    = (Ret (slice_to (orphans_of five_photos) 10), w2) ∧
    trace w2 = trace w1
               ++ (MediaItemsGet
                     <$> ids_of (slice_to (orphans_of five_photos) 10))
               ++ ((λ i, AlbumsBatchAdd "a1" [i])
                     <$> filter (λ i, i ∉ lookup_fails flaky)
                           (ids_of (slice_to (orphans_of five_photos) 10))).
Proof.
  apply (get_and_move_items_no_album_skips_refused five_photos flaky
           7 "a1" 10 start).
  - repeat constructor. by eexists.
  - change (enumerated five_photos) with five_photos_enumerated.
    repeat constructor; apply photo_carries_id.
  - vm_compute. lia.
Defined.

(** ** Creating a shareable album *)

Section Create.
Context {St : Type} (admin : Admin St).

Lemma admin_execute_run {R} req (ep : St → (exn + R) * St)
    (w : world (St * list admin_request)) :
  admin_execute req ep w
  = (match fst (ep (fst (svc w))) with inl e => Raise e | inr v => Ret v end,
     World (snd (ep (fst (svc w))), snd (svc w) ++ [req]) (trace w) (stdout w)).
Proof. unfold admin_execute. by destruct (ep (fst (svc w))) as [[e|v] s']. Qed.
End Create.

(** X13: when the creation answers an album with an id and the share
    answers a [shareInfo] with a [shareableUrl], [create_shareable_album]
    returns that id and that URL, having sent the creation with the given
    title and then one share request for the created id with both the
    collaborative and the commentable flag on, and having printed one
    line. *)
Theorem create_shareable_album_returns {St} (admin : Admin St) album_title
    (w : world (St * list admin_request))
    created_album s1 album_id shared_album s2 share_info shareable_url :
  albums_create admin album_title (fst (svc w)) = (inr created_album, s1) →
  created_album !! "id" = Some album_id →
  albums_share admin album_id true true s1 = (inr shared_album, s2) →
  shared_album !! "shareInfo" = Some share_info →
  share_info !! "shareableUrl" = Some shareable_url →
  create_shareable_album admin album_title w
  = (Ret (album_id, shareable_url),
     World (s2, snd (svc w) ++ [AlbumsCreate album_title;
                                AlbumsShare album_id true true])
       (trace w) (stdout w ++ [created_line album_title album_id])).
Proof.
  intros Hcreate Hid Hshare Hinfo Hurl. unfold create_shareable_album.
  unfold_M. rewrite admin_execute_run, Hcreate. cbn.
  unfold getitem at 1. rewrite Hid. unfold_M.
  rewrite admin_execute_run. cbn. rewrite Hshare. cbn.
  unfold getobj. rewrite Hinfo. unfold_M.
  unfold getitem. rewrite Hurl. unfold_M. cbn. by rewrite <-app_assoc.
Qed.

Lemma create_shareable_album_returns_witness :
  create_shareable_album (counting_admin ∅) "Trip" no_albums
  = (Ret ("album-0", "https://photos.example/album-0"),
     World (["Trip"], [AlbumsCreate "Trip"; AlbumsShare "album-0" true true])
       [] [created_line "Trip" "album-0"]).
Proof.
  apply (create_shareable_album_returns (counting_admin ∅) "Trip" no_albums
           {[ "id" := "album-0"; "title" := "Trip" ]} ["Trip"] "album-0"
           {[ "shareInfo" :=
                {[ "shareableUrl" := "https://photos.example/album-0" ]} ]}
           ["Trip"]
           {[ "shareableUrl" := "https://photos.example/album-0" ]}
           "https://photos.example/album-0"); reflexivity.
Defined.

(** X14: however [create_shareable_album] ends, it has sent the creation
    request first and at most one share request after it, for the id of the
    album just created with both flags on; it prints its line exactly when
    it returns, and what it returns is the id it shared. *)
Theorem create_shareable_album_requests {St} (admin : Admin St) album_title
    (w : world (St * list admin_request)) :
  let run := create_shareable_album admin album_title w in
  (snd (svc (snd run)) = snd (svc w) ++ [AlbumsCreate album_title] ∧
   stdout (snd run) = stdout w ∧
   ∀ r, fst run ≠ Ret r) ∨
  (∃ created_album s1 album_id,
     albums_create admin album_title (fst (svc w)) = (inr created_album, s1) ∧
     created_album !! "id" = Some album_id ∧
     snd (svc (snd run))
     = snd (svc w) ++ [AlbumsCreate album_title; AlbumsShare album_id true true] ∧
     ((stdout (snd run) = stdout w ∧ ∀ r, fst run ≠ Ret r) ∨
      (stdout (snd run) = stdout w ++ [created_line album_title album_id] ∧
       ∃ shareable_url, fst run = Ret (album_id, shareable_url)))).
Proof.
  intros run. destruct run as [o w'] eqn:Hrun. subst run. cbn [fst snd].
  revert Hrun. unfold create_shareable_album. unfold_M.
  rewrite admin_execute_run.
  destruct (albums_create admin album_title (fst (svc w)))
    as [[e|created_album] s1] eqn:Hcreate; cbn.
  { intros [= <- <-]. left. by repeat split. }
  unfold getitem at 1.
  destruct (created_album !! "id") as [album_id|] eqn:Hid; unfold_M; cbn.
  2:{ intros [= <- <-]. left. by repeat split. }
  rewrite admin_execute_run. cbn.
  destruct (albums_share admin album_id true true s1)
    as [[e|shared_album] s2]; cbn.
  { intros [= <- <-]. right. exists created_album, s1, album_id. cbn.
    rewrite <-app_assoc. split_and!; [done..|]. left. by split. }
  unfold getobj. destruct (shared_album !! "shareInfo") as [share_info|];
    unfold_M; cbn.
  2:{ intros [= <- <-]. right. exists created_album, s1, album_id. cbn.
      rewrite <-app_assoc. split_and!; [done..|]. left. by split. }
  unfold getitem.
  destruct (share_info !! "shareableUrl") as [shareable_url|]; unfold_M; cbn;
    intros [= <- <-]; right; exists created_album, s1, album_id; cbn;
    rewrite <-app_assoc; (split_and!; [done..|]).
  - right. split; [done|]. by exists shareable_url.
  - left. by split.
Qed.

(** X15: when the share request raises after the album was created,
    [create_shareable_album] raises that error: both requests are on the
    log, no request follows to undo the creation, and nothing is printed. *)
Theorem create_shareable_album_no_rollback {St} (admin : Admin St) album_title
    (w : world (St * list admin_request)) created_album s1 album_id e s2 :
  albums_create admin album_title (fst (svc w)) = (inr created_album, s1) →
  created_album !! "id" = Some album_id →
  albums_share admin album_id true true s1 = (inl e, s2) →
  create_shareable_album admin album_title w
  = (Raise e,
     World (s2, snd (svc w) ++ [AlbumsCreate album_title;
                                AlbumsShare album_id true true])
       (trace w) (stdout w)).
Proof.
  intros Hcreate Hid Hshare. unfold create_shareable_album.
  unfold_M. rewrite admin_execute_run, Hcreate. cbn.
  unfold getitem at 1. rewrite Hid. unfold_M.
  rewrite admin_execute_run. cbn. rewrite Hshare. cbn. by rewrite <-app_assoc.
Qed.

Lemma create_shareable_album_no_rollback_witness :
  create_shareable_album (counting_admin {[ "Trip" ]}) "Trip" no_albums
  = (Raise (HttpError "403 Forbidden"),
     World (["Trip"], [AlbumsCreate "Trip"; AlbumsShare "album-0" true true])
       [] []).
Proof.
  apply (create_shareable_album_no_rollback (counting_admin {[ "Trip" ]})
           "Trip" no_albums {[ "id" := "album-0"; "title" := "Trip" ]}
           ["Trip"] "album-0" (HttpError "403 Forbidden") ["Trip"]);
    reflexivity.
Defined.

(** X16: when the share response lacks [shareInfo], or its [shareInfo]
    lacks [shareableUrl], [create_shareable_album] raises [KeyError] for the
    missing key after the album has been created and shared, and prints
    nothing. *)
Theorem create_shareable_album_missing_url {St} (admin : Admin St) album_title
    (w : world (St * list admin_request))
    created_album s1 album_id shared_album s2 :
  albums_create admin album_title (fst (svc w)) = (inr created_album, s1) →
  created_album !! "id" = Some album_id →
  albums_share admin album_id true true s1 = (inr shared_album, s2) →
  let after_share :=
    World (s2, snd (svc w) ++ [AlbumsCreate album_title;
                               AlbumsShare album_id true true])
      (trace w) (stdout w) in
  (shared_album !! "shareInfo" = None →
   create_shareable_album admin album_title w
   = (Raise (KeyError "shareInfo"), after_share)) ∧
  (∀ share_info,
     shared_album !! "shareInfo" = Some share_info →
     share_info !! "shareableUrl" = None →
     create_shareable_album admin album_title w
     = (Raise (KeyError "shareableUrl"), after_share)).
Proof.
  intros Hcreate Hid Hshare after_share.
  assert (Hrun : create_shareable_album admin album_title w
    = (share_info ← getobj shared_album "shareInfo";
       shareable_url ← getitem share_info "shareableUrl";
       print (created_line album_title album_id) ;;
       mret (album_id, shareable_url)) after_share).
  { unfold create_shareable_album.
    unfold_M. rewrite admin_execute_run, Hcreate. cbn.
    unfold getitem at 1. rewrite Hid. unfold_M.
    rewrite admin_execute_run. cbn. rewrite Hshare. cbn.
    unfold after_share. by rewrite <-app_assoc. }
  rewrite Hrun. split.
  - intros Hinfo. unfold getobj. by rewrite Hinfo.
  - intros share_info Hinfo Hurl. unfold getobj, getitem. rewrite Hinfo.
    unfold_M. by rewrite Hurl.
Qed.

Lemma create_shareable_album_missing_url_witness :
  create_shareable_album unshared_admin "Trip" (World (tt, []) [] [])
  = (Raise (KeyError "shareInfo"),
     World (tt, [AlbumsCreate "Trip"; AlbumsShare "a1" true true]) [] []).
Proof.
  destruct (create_shareable_album_missing_url unshared_admin "Trip"
              (World (tt, []) [] []) {[ "id" := "a1"; "title" := "Trip" ]}
              tt "a1" ∅ tt) as [Hmissing _]; [reflexivity..|].
  apply Hmissing. reflexivity.
Defined.

(** ** Authentication *)

(** X17: with credentials in [token.json] that are valid,
    [authenticate_google_photos] neither refreshes them nor asks the user:
    it builds the service from them, its outcome is the outcome of the
    build, and [token.json] is left as it was. *)
Theorem authenticate_google_photos_cached {E St Svc} (lib : Auth E St Svc)
    (s : auth_state St) content creds :
  token_json s = Some content →
  from_authorized_user_file lib content = inr creds →
  valid creds = true →
  authenticate_google_photos lib s
  = (fst (build lib creds (outside s)),
     AuthState (Some content) (snd (build lib creds (outside s)))).
Proof.
  intros Hfile Hload Hvalid.
  unfold authenticate_google_photos, load_token, build_service.
  rewrite Hfile, Hload, Hvalid. by destruct (build lib creds (outside s)).
Qed.

Lemma authenticate_google_photos_cached_witness :
  authenticate_google_photos example_auth (AuthState (Some "valid:r1") [])
  = (inr (Credentials true false (Some "r1")),
     AuthState (Some "valid:r1") ["build"]).
Proof.
  apply (authenticate_google_photos_cached example_auth
           (AuthState (Some "valid:r1") []) "valid:r1"
           (Credentials true false (Some "r1"))); reflexivity.
Defined.

(** X18: [authenticate_google_photos] never removes [token.json]: it leaves
    it as it was or overwrites it with the serialisation of some
    credentials.  A service it returns was built from credentials that are
    either the ones it has just written to [token.json], or valid ones read
    from a [token.json] it has left untouched. *)
Theorem authenticate_google_photos_token_file {E St Svc} (lib : Auth E St Svc)
    (s : auth_state St) :
  let run := authenticate_google_photos lib s in
  (token_json (snd run) = token_json s ∨
   ∃ creds, token_json (snd run) = Some (to_json lib creds)) ∧
  ∀ service, fst run = inr service →
    ∃ creds o,
      build lib creds o = (inr service, outside (snd run)) ∧
      (token_json (snd run) = Some (to_json lib creds) ∨
       (valid creds = true ∧
        token_json (snd run) = token_json s ∧
        ∃ content, token_json s = Some content ∧
                   from_authorized_user_file lib content = inr creds)).
Proof.
  assert (Hrenew : ∀ creds,
    let run := renew_and_build lib creds s in
    (token_json (snd run) = token_json s ∨
     ∃ creds, token_json (snd run) = Some (to_json lib creds)) ∧
    ∀ service, fst run = inr service →
      ∃ creds o,
        build lib creds o = (inr service, outside (snd run)) ∧
        token_json (snd run) = Some (to_json lib creds)).
  { intros creds. unfold renew_and_build, build_service.
    destruct (renew lib creds (outside s)) as [[e|c] o]; cbn.
    - split; [by left|]. intros service [=].
    - destruct (build lib c o) as [r o'] eqn:Hbuild; cbn. split.
      + right. by exists c.
      + intros service ->. by exists c, o. }
  unfold authenticate_google_photos, load_token.
  destruct (token_json s) as [content|] eqn:Hfile.
  2:{ destruct (Hrenew None) as [Hfile' Hbuilt]. split; [done|].
      intros service Hservice.
      destruct (Hbuilt service Hservice) as (c & o & Hbuild & Hwritten).
      exists c, o. split; [done|]. by left. }
  destruct (from_authorized_user_file lib content) as [e|c] eqn:Hload.
  { cbn. split; [by left|]. intros service [=]. }
  destruct (valid c) eqn:Hvalid.
  - unfold build_service.
    destruct (build lib c (outside s)) as [r o'] eqn:Hbuild; cbn. split.
    + by left.
    + intros service ->. exists c, (outside s). split; [done|]. right.
      split; [done|]. split; [done|]. by exists content.
  - destruct (Hrenew (Some c)) as [Hfile' Hbuilt]. split; [done|].
    intros service Hservice.
    destruct (Hbuilt service Hservice) as (c' & o & Hbuild & Hwritten).
    exists c', o. split; [done|]. by left.
Qed.

(** X19: when [token.json] exists and cannot be read as credentials,
    [authenticate_google_photos] raises the error of the reader: it does not
    fall back on asking the user, and leaves [token.json] and the outside
    world as they were. *)
Theorem authenticate_google_photos_unreadable_token {E St Svc}
    (lib : Auth E St Svc) (s : auth_state St) content e :
  token_json s = Some content →
  from_authorized_user_file lib content = inl e →
  authenticate_google_photos lib s = (inl e, s).
Proof.
  intros Hfile Hload. unfold authenticate_google_photos, load_token.
  by rewrite Hfile, Hload.
Qed.

Lemma authenticate_google_photos_unreadable_token_witness :
  authenticate_google_photos example_auth (AuthState (Some "") [])
  = (inl "ValueError", AuthState (Some "") []).
Proof.
  apply (authenticate_google_photos_unreadable_token example_auth
           (AuthState (Some "") []) "" "ValueError"); reflexivity.
Defined.

(** X20: when the credentials in [token.json] are expired, carry a refresh
    token, and the refresh raises, [authenticate_google_photos] raises that
    error: it does not fall back on asking the user, builds nothing, and
    leaves [token.json] as it was. *)
Theorem authenticate_google_photos_refresh_fails {E St Svc}
    (lib : Auth E St Svc) (s : auth_state St) content creds e o :
  token_json s = Some content →
  from_authorized_user_file lib content = inr creds →
  valid creds = false →
  expired creds = true →
  truthy (refresh_token creds) = true →
  refresh lib creds (outside s) = (inl e, o) →
  authenticate_google_photos lib s = (inl e, AuthState (Some content) o).
Proof.
  intros Hfile Hload Hvalid Hexpired Htoken Hrefresh.
  unfold authenticate_google_photos, load_token, renew_and_build, renew.
  by rewrite Hfile, Hload, Hvalid, Hexpired, Htoken, Hrefresh.
Qed.

Lemma authenticate_google_photos_refresh_fails_witness :
  authenticate_google_photos example_auth (AuthState (Some "revoked") [])
  = (inl "RefreshError", AuthState (Some "revoked") ["refresh"]).
Proof.
  apply (authenticate_google_photos_refresh_fails example_auth
           (AuthState (Some "revoked") []) "revoked"
           (Credentials false true (Some "revoked")) "RefreshError"
           ["refresh"]); reflexivity.
Defined.

(** X21: credentials in [token.json] that are not valid and are either not
    expired or without a refresh token are ignored: the outcome and the
    outside world are those of a run without [token.json], and so is
    [token.json] whenever a service is returned. *)
Theorem authenticate_google_photos_ignores_unusable {E St Svc}
    (lib : Auth E St Svc) (s : auth_state St) content creds :
  token_json s = Some content →
  from_authorized_user_file lib content = inr creds →
  valid creds = false →
  expired creds && truthy (refresh_token creds) = false →
  let run := authenticate_google_photos lib s in
  let first_run := authenticate_google_photos lib (AuthState None (outside s)) in
  fst run = fst first_run ∧
  outside (snd run) = outside (snd first_run) ∧
  ∀ service, fst run = inr service → snd run = snd first_run.
Proof.
  intros Hfile Hload Hvalid Hrefresh.
  unfold authenticate_google_photos, load_token, renew_and_build, renew.
  rewrite Hfile, Hload, Hvalid, Hrefresh. cbn.
  destruct (run_local_server lib (outside s)) as [[e|c] o]; cbn.
  - split; [done|]. split; [done|]. intros service [=].
  - done.
Qed.

Lemma authenticate_google_photos_ignores_unusable_witness :
  fst (authenticate_google_photos example_auth
         (AuthState (Some "access-only") []))
  = inr (Credentials true false (Some "granted")).
Proof.
  destruct (authenticate_google_photos_ignores_unusable example_auth
              (AuthState (Some "access-only") []) "access-only"
              (Credentials false true None))
    as (Hrun & _ & _); [reflexivity..|].
  exact Hrun.
Defined.

(** ** Failures of the move operation *)

(** X22: when [get_and_move_items_no_album] does not return, it has sent
    only listing and member-search requests and has printed nothing: what
    stops it happens before the heading is printed, and no item has been
    looked up or added to the album. *)
Theorem get_and_move_items_no_album_fails_early {St} (service : Service St)
    fuel album_id batch_size (w : world St) :
  let run := get_and_move_items_no_album service fuel album_id batch_size w in
  (∀ candidates, fst run ≠ Ret candidates) →
  ∃ t, trace (snd run) = trace w ++ t ∧
       Forall reads_library t ∧
       stdout (snd run) = stdout w.
Proof.
  intros run Hno. subst run.
  rewrite get_and_move_items_no_album_abort.
  - apply emits_get_items_no_album.
  - intros candidates. by rewrite <-(get_and_move_items_no_album_outcome
                                     service fuel album_id).
Qed.

Lemma get_and_move_items_no_album_fails_early_witness :
  ∃ t,
    trace (snd (get_and_move_items_no_album
                  (library_service idless_library no_faults) 2 "a1" 10 start))
    = trace start ++ t ∧
    Forall reads_library t ∧
    stdout (snd (get_and_move_items_no_album
                   (library_service idless_library no_faults) 2 "a1" 10 start))
    = stdout start.
Proof.
  apply (get_and_move_items_no_album_fails_early
           (library_service idless_library no_faults) 2 "a1" 10 start).
  intros candidates.
  assert (fst (get_and_move_items_no_album
                 (library_service idless_library no_faults) 2 "a1" 10 start)
          = Raise (KeyError "id")) as -> by reflexivity.
  discriminate.
Defined.

(** ** The orphan resolver on photos that carry their ids *)

(** X23: for a batch size [>= 0], once the photo enumeration has
    returned [all_photos], each photo carrying its id, and the membership
    collector has returned [ids], [get_items_no_album] returns exactly the
    photos whose id is outside [ids], in enumeration order, cut to the first
    [batch_size]: no returned photo is an album member, the length is at
    most [batch_size], and a batch size that covers the orphan count
    returns all orphans.  Over a library at rest whose albums and
    enumerated photos carry their ids, enough fuel gives that result. *)
Theorem get_items_no_album_orphans batch_size :
  0 ≤ batch_size →
  (∀ St (service : Service St) fuel w all_photos w1 ids w2,
     get_all_photos service fuel w = (Ret all_photos, w1) →
     get_album_item_ids service fuel w1 = (Ret ids, w2) →
     Forall (carries "id") all_photos →
     let orphans := filter (orphan ids) all_photos in
     ∃ result,
       get_items_no_album service fuel batch_size w = (Ret result, w2) ∧
       result = take (Z.to_nat batch_size) orphans ∧
       sublist result all_photos ∧
       Forall (orphan ids) result ∧
       Z.of_nat (length result) ≤ batch_size ∧
       (Z.of_nat (length orphans) ≤ batch_size → result = orphans)) ∧
  (∀ (L : library) (F : faults) fuel w,
     Forall (carries "id") (listed_albums L) →
     Forall (carries "id") (enumerated L) →
     (enough_fuel L ≤ fuel)%nat →
     ∃ w', get_items_no_album (library_service L F) fuel batch_size w
           = (Ret (take (Z.to_nat batch_size) (orphans_of L)), w')).
Proof.
  intros Hb. split.
  - intros St service fuel w all_photos w1 ids w2 H1 H2 Hid orphans.
    exists (take (Z.to_nat batch_size) orphans).
    split; [|split; [done|]].
    { rewrite (get_items_no_album_run service fuel batch_size _ _ _ _ _ H1 H2 Hid).
      by rewrite slice_to_nonneg. }
    split; [|split; [|split]].
    + etrans; [apply sublist_take|]. apply sublist_filter.
    + apply Forall_take, Forall_forall. intros p Hp.
      by apply list_elem_of_filter in Hp as [? _].
    + rewrite length_take. lia.
    + intros Hlen. apply take_ge. lia.
  - intros L F fuel w Halbums Hphotos Hfuel.
    destruct (get_items_no_album_at_rest L F fuel batch_size w
                Halbums Hphotos Hfuel) as [w' Hrun].
    exists w'. by rewrite Hrun, slice_to_nonneg.
Qed.

Lemma get_items_no_album_orphans_witness :
  fst (get_items_no_album (library_service five_photos no_faults) 5 10 start)
  = Ret [photo "p2"; photo "p4"; photo "p5"] ∧
  ∃ w', get_items_no_album (library_service five_photos no_faults) 7 10 start
        = (Ret [photo "p2"; photo "p4"; photo "p5"], w').
Proof.
  destruct (get_items_no_album_orphans 10 ltac:(lia)) as [Hany Hrest].
  split.
  - destruct (Hany unit (library_service five_photos no_faults) 5%nat start
                five_photos_enumerated five_photos_w1
                {[ "p1"; "p3" ]} five_photos_w2)
      as (r & Hrun & Hr & _).
    + reflexivity.
    + reflexivity.
    + repeat constructor; apply photo_carries_id.
    + rewrite Hrun, Hr. reflexivity.
  - destruct (Hrest five_photos no_faults 7%nat start) as [w' Hrun].
    + repeat constructor. by eexists.
    + change (enumerated five_photos) with five_photos_enumerated.
      repeat constructor; apply photo_carries_id.
    + vm_compute. lia.
    + exists w'. rewrite Hrun. reflexivity.
Defined.
